(** * People tracker: greedy nearest-centroid association over Kalman tracks

    A shallow embedding of [app/tracker.py] (classes [Track] and
    [PeopleTracker]) and of the detection record built by
    [app/detector.py], followed by the properties of the per-frame cycle.

    Conventions of the embedding.
    - Python [int] is [Z].  Python [float] is a rational [Q], read in the
      format with 53-bit significands and an unbounded exponent: sums,
      differences and halving are taken exact, the conversion of an [int]
      rounds to 53 bits ([float_of_int]), and the exponent range of binary64
      is left out ([float("inf")] is the extra element [PInf] of [xfloat]).
    - A [dict] with fixed keys is a record; a missing ["conf"] key is [None].
    - The [set]s of indices are [gset nat].
    - [filterpy]'s [KalmanFilter.predict]/[.update] and [math.hypot] are
      library code: they are fields of the class [NumLib].  A call either
      returns or raises, in both cases leaving some filter object behind.
    - [logging.exception] appends a [diagnostic] to the log returned by the
      function.
    - The module-level [_TRACK_ID] is threaded through explicitly. *)

From Stdlib Require Import ZArith QArith Qround Qabs String.
From stdpp Require Import base decidable option list sorting gmap pretty.

Local Open Scope Z_scope.
#[local] Set Warnings "-clear-no-such-hyp".

(** ** Data *)

(** [Tuple[int, int, int, int]] *)
Definition BBox : Type := Z * Z * Z * Z.

(** A point: [(x, y)] of numbers. *)
Definition Point : Type := Q * Q.

(** One element of the list returned by [PeopleDetector.detect]. *)
Record Detection : Type := mkDetection {
  det_bbox : BBox;
  det_conf : option Q;
  det_class : string;
  det_center : Point
}.

(** detector.py, lines 63-70: the dictionary appended for one box. *)
Definition detection_of_box (x1 y1 x2 y2 : Z) (conf : Q) : Detection :=
  {| det_bbox := (x1, y1, x2, y2);
     det_conf := Some conf;
     det_class := "person";
     det_center := (inject_Z ((x1 + x2) / 2), inject_Z ((y1 + y2) / 2)) |}.

(** One element of the list returned by [PeopleTracker.update]. *)
Record Result : Type := mkResult {
  res_id : Z;
  res_bbox : BBox;
  res_conf : option Q;
  res_class : string
}.

Definition Matrix : Type := list (list Q).

(** The attributes of a [filterpy.kalman.KalmanFilter] the tracker sets. *)
Record KalmanFilter : Type := mkKalman {
  kf_x : list Q;
  kf_F : Matrix;
  kf_H : Matrix;
  kf_P : Matrix;
  kf_R : Matrix;
  kf_Q : Matrix
}.

Record Track : Type := mkTrack {
  track_id : Z;
  kf : KalmanFilter;
  bbox : BBox;
  missed_frames : Z;
  hits : Z
}.

Record PeopleTracker : Type := mkTracker {
  tracks : list Track;
  max_distance : Q;
  max_missed : Z
}.

(** What [logging.exception] records. *)
Inductive diagnostic : Type :=
  | PredictError (tid : Z)
  | UpdateError (tid : Z).

(** The result of a library call that may raise. *)
Inductive outcome (A : Type) : Type :=
  | Returned (a : A)
  | Raised (a : A).
Arguments Returned {A} a.
Arguments Raised {A} a.

(** [float] extended with [float("inf")]. *)
Inductive xfloat : Type :=
  | Finite (q : Q)
  | PInf.

Definition Qltb (a b : Q) : bool := negb (Qle_bool b a).

(** [d < best_d] *)
Definition xlt (d : Q) (best_d : xfloat) : bool :=
  match best_d with
  | Finite b => Qltb d b
  | PInf => true
  end.

(** [best_d <= max_distance] *)
Definition xle (best_d : xfloat) (m : Q) : bool :=
  match best_d with
  | Finite b => Qle_bool b m
  | PInf => false
  end.

(** ** Small matrix helpers ([numpy] expressions of [Track.__init__]) *)

Definition eye (n : nat) : Matrix :=
  map (fun i => map (fun j => if Nat.eqb i j then 1%Q else 0%Q) (seq 0 n))
    (seq 0 n).

Definition zeros (r c : nat) : Matrix := repeat (repeat 0%Q c) r.

Definition mscale (k : Q) (m : Matrix) : Matrix :=
  map (map (fun q => Qred (q * k))) m.

(** [KalmanFilter(dim_x, dim_z)]: the documented defaults. *)
Definition KalmanFilter_new (dim_x dim_z : nat) : KalmanFilter :=
  {| kf_x := repeat 0%Q dim_x;
     kf_F := eye dim_x;
     kf_H := zeros dim_z dim_x;
     kf_P := eye dim_x;
     kf_R := eye dim_z;
     kf_Q := eye dim_x |}.

(** ** Library interface *)

Class NumLib : Type := {
  (** [KalmanFilter.predict()] *)
  lib_predict : KalmanFilter -> outcome KalmanFilter;
  (** [KalmanFilter.update(z)] *)
  lib_update : KalmanFilter -> list Q -> outcome KalmanFilter;
  (** [math.hypot] *)
  hypot : Q -> Q -> Q
}.

(** ** class Track *)

Definition set_kf (tr : Track) (k : KalmanFilter) : Track :=
  {| track_id := track_id tr; kf := k; bbox := bbox tr;
     missed_frames := missed_frames tr; hits := hits tr |}.

Definition set_missed_frames (tr : Track) (m : Z) : Track :=
  {| track_id := track_id tr; kf := kf tr; bbox := bbox tr;
     missed_frames := m; hits := hits tr |}.

(** The natural number [a] rounded to [p] significant bits, to the nearest
    and to the even significand on a tie. *)
Definition round_to_bits (p : Z) (a : Z) : Z :=
  let e := Z.log2 a + 1 - p in
  if e <=? 0 then a
  else
    let m := a / 2 ^ e in
    let r := a mod 2 ^ e in
    let half := 2 ^ (e - 1) in
    let m' := if (half <? r) || ((r =? half) && Z.odd m) then m + 1 else m in
    m' * 2 ^ e.

(** The [float] an [int] is converted to when it meets a [float] in an
    arithmetic expression. *)
Definition float_of_int (n : Z) : Q :=
  inject_Z (Z.sgn n * round_to_bits 53 (Z.abs n)).

(** [(x1 + x2) / 2.0, (y1 + y2) / 2.0]: the sum is an [int], the quotient a
    [float]; halving a float is exact. *)
Definition bbox_center (b : BBox) : Point :=
  let '(x1, y1, x2, y2) := b in
  ((float_of_int (x1 + x2) / 2)%Q, (float_of_int (y1 + y2) / 2)%Q).

(** tracker.py, lines 23-44. *)
Definition Track_init (b : BBox) (tid : Z) : Track :=
  let c := bbox_center b in
  let k := KalmanFilter_new 4 2 in
  {| track_id := tid;
     kf := {| kf_x := [c.1; c.2; 0%Q; 0%Q];
              kf_F := [[1; 0; 1; 0]; [0; 1; 0; 1];
                       [0; 0; 1; 0]; [0; 0; 0; 1]]%Q;
              kf_H := [[1; 0; 0; 0]; [0; 1; 0; 0]]%Q;
              kf_P := mscale 100 (kf_P k);
              kf_R := mscale 5 (kf_R k);
              kf_Q := mscale (1 # 100) (kf_Q k) |};
     bbox := b;
     missed_frames := 0;
     hits := 1 |}.

Section WithLib.
Context {lib : NumLib}.

(** tracker.py, lines 46-51. *)
Definition Track_predict (tr : Track) : Track * list diagnostic :=
  match lib_predict (kf tr) with
  | Returned k => (set_kf tr k, [])
  | Raised k => (set_kf tr k, [PredictError (track_id tr)])
  end.

(** tracker.py, lines 53-64. *)
Definition Track_update (tr : Track) (b : BBox) : Track * list diagnostic :=
  let c := bbox_center b in
  match lib_update (kf tr) [c.1; c.2] with
  | Returned k =>
      ({| track_id := track_id tr; kf := k; bbox := b;
          missed_frames := 0; hits := hits tr + 1 |}, [])
  | Raised k => (set_kf tr k, [UpdateError (track_id tr)])
  end.

(** ** class PeopleTracker *)

(** tracker.py, lines 69-74: returns the instance and the new [_TRACK_ID]. *)
Definition PeopleTracker_init (max_distance : Q) (max_missed : Z)
  : PeopleTracker * Z :=
  ({| tracks := []; max_distance := max_distance;
      max_missed := max_missed |}, 1).

(** tracker.py, lines 76-78. *)
Definition _distance (a b : Point) : Q :=
  hypot (a.1 - b.1)%Q (a.2 - b.2)%Q.

(** [(tr.kf.x[0], tr.kf.x[1])] *)
Definition tr_center (tr : Track) : Point :=
  (nth 0 (kf_x (kf tr)) 0%Q, nth 1 (kf_x (kf tr)) 0%Q).

(** Lines 94-95: [predict] on every track, collecting the log. *)
Fixpoint predict_all (trs : list Track) : list Track * list diagnostic :=
  match trs with
  | [] => ([], [])
  | tr :: rest =>
      let '(tr', lg) := Track_predict tr in
      let '(rest', lg') := predict_all rest in
      (tr' :: rest', lg ++ lg')
  end.

(** Lines 107-115: the inner loop over [enumerate(det_centers)], started at
    index [di] with the current [best_d], [best_di]. *)
Fixpoint nearest (c : Point) (di : nat) (det_centers : list Point)
    (matched_det_idx : gset nat) (best_d : xfloat) (best_di : option nat)
  : xfloat * option nat :=
  match det_centers with
  | [] => (best_d, best_di)
  | dc :: rest =>
      if bool_decide (di ∈ matched_det_idx)
      then nearest c (S di) rest matched_det_idx best_d best_di
      else
        let d := _distance c dc in
        if xlt d best_d
        then nearest c (S di) rest matched_det_idx (Finite d) (Some di)
        else nearest c (S di) rest matched_det_idx best_d best_di
  end.

(** State of the outer loop of lines 105-122.  [as_tracks] are the tracks
    already visited (as left by the loop body), [as_choice] records for each
    of them the detection index passed to [tr.update], if any. *)
Record assoc_state : Type := mkAssoc {
  as_tracks : list Track;
  as_matched_det_idx : gset nat;
  as_matched_tr_idx : gset nat;
  as_choice : list (option nat);
  as_log : list diagnostic
}.

(** Lines 106-122: the body of the outer loop for track [tr] at index [ti].
    [best_di] is an index of [det_centers], so [det_bboxes[best_di]] never
    raises; [nth] needs a default all the same. *)
Definition assoc_step (max_distance : Q) (det_centers : list Point)
    (det_bboxes : list BBox) (st : assoc_state) (ti : nat) (tr : Track)
  : assoc_state :=
  let '(best_d, best_di) :=
    nearest (tr_center tr) 0 det_centers (as_matched_det_idx st) PInf None in
  match best_di with
  | Some di =>
      if xle best_d max_distance then
        let '(tr', lg) := Track_update tr (nth di det_bboxes (0, 0, 0, 0)) in
        {| as_tracks := as_tracks st ++ [tr'];
           as_matched_det_idx := {[di]} ∪ as_matched_det_idx st;
           as_matched_tr_idx := {[ti]} ∪ as_matched_tr_idx st;
           as_choice := as_choice st ++ [Some di];
           as_log := as_log st ++ lg |}
      else
        {| as_tracks :=
             as_tracks st ++ [set_missed_frames tr (missed_frames tr + 1)];
           as_matched_det_idx := as_matched_det_idx st;
           as_matched_tr_idx := as_matched_tr_idx st;
           as_choice := as_choice st ++ [None];
           as_log := as_log st |}
  | None =>
      {| as_tracks :=
           as_tracks st ++ [set_missed_frames tr (missed_frames tr + 1)];
         as_matched_det_idx := as_matched_det_idx st;
         as_matched_tr_idx := as_matched_tr_idx st;
         as_choice := as_choice st ++ [None];
         as_log := as_log st |}
  end.

(** Lines 105-122: the outer loop over [enumerate(self.tracks)], from
    index [ti] on. *)
Fixpoint associate (max_distance : Q) (det_centers : list Point)
    (det_bboxes : list BBox) (st : assoc_state) (ti : nat) (trs : list Track)
  : assoc_state :=
  match trs with
  | [] => st
  | tr :: rest =>
      associate max_distance det_centers det_bboxes
        (assoc_step max_distance det_centers det_bboxes st ti tr) (S ti) rest
  end.

Definition assoc_start : assoc_state :=
  {| as_tracks := []; as_matched_det_idx := ∅; as_matched_tr_idx := ∅;
     as_choice := []; as_log := [] |}.

(** Lines 125-130: new tracks for the detections left unclaimed, from
    detection index [di] on; returns them with the new [_TRACK_ID]. *)
Fixpoint spawn (matched_det_idx : gset nat) (di : nat)
    (detections : list Detection) (g : Z) : list Track * Z :=
  match detections with
  | [] => ([], g)
  | det :: rest =>
      if bool_decide (di ∈ matched_det_idx)
      then spawn matched_det_idx (S di) rest g
      else
        let '(new, g') := spawn matched_det_idx (S di) rest (g + 1) in
        (Track_init (det_bbox det) g :: new, g')
  end.

(** Line 133. *)
Definition prune (max_missed : Z) (trs : list Track) : list Track :=
  filter (fun t => missed_frames t ≤ max_missed) trs.

(** Lines 137-143; [tuple(map(int, tr.bbox))] is [tr.bbox] on integers. *)
Definition result_of (tr : Track) : Result :=
  {| res_id := track_id tr; res_bbox := bbox tr;
     res_conf := None; res_class := "person" |}.

(** Lines 147-149: the inner loop over [results] for one detection. *)
Definition attach_conf (det : Detection) (results : list Result)
  : list Result :=
  map (fun res =>
         if bool_decide (res_bbox res = det_bbox det)
         then {| res_id := res_id res; res_bbox := res_bbox res;
                 res_conf := det_conf det; res_class := res_class res |}
         else res) results.

(** Lines 146-149. *)
Definition attach_all (detections : list Detection) (results : list Result)
  : list Result :=
  fold_left (fun rs det => attach_conf det rs) detections results.

(** Everything one call of [PeopleTracker.update] computes. *)
Record Frame : Type := mkFrame {
  f_predicted : list Track;
  f_assoc : assoc_state;
  f_new : list Track;
  f_track_id : Z;
  f_tracks : list Track;
  f_results : list Result;
  f_log : list diagnostic
}.

(** tracker.py, lines 80-151, with [g] the value of [_TRACK_ID] on entry. *)
Definition update_frame (g : Z) (self : PeopleTracker)
    (detections : list Detection) : Frame :=
  let '(predicted, lg) := predict_all (tracks self) in
  let det_centers := map det_center detections in
  let det_bboxes := map det_bbox detections in
  let st := associate (max_distance self) det_centers det_bboxes
              assoc_start 0 predicted in
  let '(new, g') := spawn (as_matched_det_idx st) 0 detections g in
  let trs := prune (max_missed self) (as_tracks st ++ new) in
  {| f_predicted := predicted;
     f_assoc := st;
     f_new := new;
     f_track_id := g';
     f_tracks := trs;
     f_results := attach_all detections (map result_of trs);
     f_log := lg ++ as_log st |}.

(** [PeopleTracker.update]: the instance and [_TRACK_ID] after the call, and
    the returned list. *)
Definition update (g : Z) (self : PeopleTracker) (detections : list Detection)
  : PeopleTracker * Z * list Result :=
  let fr := update_frame g self detections in
  ({| tracks := f_tracks fr; max_distance := max_distance self;
      max_missed := max_missed self |}, f_track_id fr, f_results fr).

End WithLib.

(** ** A reference library: the Kalman equations over exact rationals

    The equations [filterpy] documents for [predict] and [update], for a
    two-dimensional measurement, and [math.hypot] with the rounding of
    binary64.  The sample runs below use it; the properties hold for every
    [NumLib]. *)

Module Exact.

Definition dot (u v : list Q) : Q :=
  Qred (fold_right Qplus 0%Q (zip_with Qmult u v)).

Definition transpose (ncols : nat) (m : Matrix) : Matrix :=
  map (fun j => map (fun row => nth j row 0%Q) m) (seq 0 ncols).

Definition ncols (m : Matrix) : nat :=
  match m with
  | [] => 0%nat
  | row :: _ => length row
  end.

Definition mv (m : Matrix) (v : list Q) : list Q :=
  map (fun row => dot row v) m.

Definition mm (a b : Matrix) : Matrix :=
  map (fun row => map (fun col => dot row col) (transpose (ncols b) b)) a.

Definition vadd (u v : list Q) : list Q :=
  zip_with (fun a b => Qred (a + b)) u v.
Definition vsub (u v : list Q) : list Q :=
  zip_with (fun a b => Qred (a - b)) u v.
Definition madd (a b : Matrix) : Matrix := zip_with vadd a b.
Definition msub (a b : Matrix) : Matrix := zip_with vsub a b.

(** [numpy.linalg.inv] on the 2x2 innovation covariance; [None] stands for
    [LinAlgError]. *)
Definition inv2 (s : Matrix) : option Matrix :=
  match s with
  | [[a; b]; [c; d]] =>
      let det := Qred (a * d - b * c) in
      if Qeq_bool det 0 then None
      else Some [[Qred (d / det); Qred (- b / det)];
                 [Qred (- c / det); Qred (a / det)]]
  | _ => None
  end.

(** [x = F x;  P = F P F' + Q] *)
Definition predict (k : KalmanFilter) : outcome KalmanFilter :=
  let F := kf_F k in
  Returned
    {| kf_x := mv F (kf_x k);
       kf_F := F; kf_H := kf_H k;
       kf_P := madd (mm (mm F (kf_P k)) (transpose (ncols F) F)) (kf_Q k);
       kf_R := kf_R k; kf_Q := kf_Q k |}.

(** [y = z - H x;  S = H P H' + R;  K = P H' S^-1;  x = x + K y;
    P = (I - K H) P (I - K H)' + K R K'] *)
Definition update (k : KalmanFilter) (z : list Q) : outcome KalmanFilter :=
  let H := kf_H k in
  let P := kf_P k in
  let R := kf_R k in
  let y := vsub z (mv H (kf_x k)) in
  let HT := transpose (ncols H) H in
  let PHT := mm P HT in
  let S := madd (mm H PHT) R in
  match inv2 S with
  | None => Raised k
  | Some SI =>
      let K := mm PHT SI in
      let I_KH := msub (eye (length (kf_x k))) (mm K H) in
      Returned
        {| kf_x := vadd (kf_x k) (mv K y);
           kf_F := kf_F k; kf_H := H;
           kf_P := madd (mm (mm I_KH P) (transpose (ncols I_KH) I_KH))
                        (mm (mm K R) (transpose (ncols K) K));
           kf_R := R; kf_Q := kf_Q k |}
  end.

(** [v * 4 ^ s], for [s] of either sign. *)
Definition scale4 (v : Q) (s : Z) : Q :=
  if 0 <=? s then (v * inject_Z (4 ^ s))%Q else (v / inject_Z (4 ^ (- s)))%Q.

(** The square root of [v] rounded to 53 significant bits, to the nearest
    and to the even significand on a tie: [m] is the integer part of the
    root of [v * 4 ^ s], where [s] is chosen for [m] to have 53 bits. *)
Definition sqrt_binary64 (v : Q) : Q :=
  if Qnum v <=? 0 then 0%Q
  else
    let s0 := (105 - (Z.log2 (Qnum v) - Z.log2 (Zpos (Qden v)))) / 2 in
    let s := if Z.sqrt (Qfloor (scale4 v s0)) <? 2 ^ 52 then s0 + 1 else s0 in
    let m := Z.sqrt (Qfloor (scale4 v s)) in
    let up :=
      match (scale4 v s * 4 ?= inject_Z ((2 * m + 1) * (2 * m + 1)))%Q with
      | Gt => true
      | Eq => Z.odd m
      | Lt => false
      end in
    let m' := if up then m + 1 else m in
    Qred (if 0 <=? s then Qmake m' (Z.to_pos (2 ^ s))
          else inject_Z (m' * 2 ^ (- s))).

(** [math.hypot]: the binary64 value nearest to the root of [x*x + y*y]. *)
Definition hypot (x y : Q) : Q := sqrt_binary64 (x * x + y * y).

End Exact.

#[local] Instance exact_lib : NumLib :=
  {| lib_predict := Exact.predict; lib_update := Exact.update;
     hypot := Exact.hypot |}.


(** ** Several instances sharing the module-level counter *)

Inductive event : Type :=
  | Construct (max_distance : Q) (max_missed : Z)
  | Update (i : nat) (detections : list Detection).

(** [world_issued] is a history variable: the ids given to new tracks, with
    the index of the instance that created them, oldest first. *)
Record World : Type := mkWorld {
  _TRACK_ID : Z;
  instances : list PeopleTracker;
  world_issued : list (nat * Z)
}.

(** tracker.py, line 18. *)
Definition world_start : World :=
  {| _TRACK_ID := 1; instances := []; world_issued := [] |}.

Section Worlds.
Context {lib : NumLib}.

Definition world_step (w : World) (ev : event) : World :=
  match ev with
  | Construct md mm =>
      let '(t, g) := PeopleTracker_init md mm in
      {| _TRACK_ID := g; instances := instances w ++ [t];
         world_issued := world_issued w |}
  | Update i detections =>
      match instances w !! i with
      | Some self =>
          let fr := update_frame (_TRACK_ID w) self detections in
          {| _TRACK_ID := f_track_id fr;
             instances :=
               <[i := (update (_TRACK_ID w) self detections).1.1]> (instances w);
             world_issued :=
               world_issued w ++ map (fun tr => (i, track_id tr)) (f_new fr) |}
      | None => w
      end
  end.

Definition world_run (w : World) (evs : list event) : World :=
  fold_left world_step evs w.

(** The ids instance [i] gave to the tracks it created, oldest first. *)
Definition ids_issued (i : nat) (w : World) : list Z :=
  map snd (filter (fun p => p.1 = i) (world_issued w)).

(** Consecutive calls of [update] on one instance. *)
Fixpoint run_frames (g : Z) (self : PeopleTracker)
    (frames : list (list Detection))
  : PeopleTracker * Z * list (list Result) :=
  match frames with
  | [] => (self, g, [])
  | detections :: rest =>
      let '(self', g', res) := update g self detections in
      let '(self'', g'', out) := run_frames g' self' rest in
      (self'', g'', res :: out)
  end.

End Worlds.

(** ** Vocabulary of the properties *)

Section Vocabulary.
Context {lib : NumLib}.

(** [di] is the detection nearest to [c] among those not in [claimed], the
    lowest index winning ties; [d] is its distance. *)
Definition nearest_unclaimed (c : Point) (det_centers : list Point)
    (claimed : gset nat) (di : nat) (d : Q) : Prop :=
  ∃ dc, det_centers !! di = Some dc ∧ (di ∉ claimed) ∧ d = _distance c dc ∧
    ∀ j dcj, det_centers !! j = Some dcj → j ∉ claimed →
      (d <= _distance c dcj)%Q ∧ ((j < di)%nat → (d < _distance c dcj)%Q).

(** The filter [KalmanFilter.predict] leaves behind, whether it returns or
    raises. *)
Definition after_predict (k : KalmanFilter) : KalmanFilter :=
  match lib_predict k with
  | Returned k' => k'
  | Raised k' => k'
  end.

(** The predicted centroid of a track: the first two entries of the state
    of its filter once the prediction of the frame is done. *)
Definition predicted_centroid (tr0 : Track) : Point :=
  (nth 0 (kf_x (after_predict (kf tr0))) 0%Q,
   nth 1 (kf_x (after_predict (kf tr0))) 0%Q).

(** [di] is, among the detections not in [claimed], the one at the least
    distance [d] from [c], the distance being [hypot] of the two coordinate
    differences; among equally near ones [di] is the lowest index. *)
Definition closest_unclaimed (c : Point) (det_centers : list Point)
    (claimed : gset nat) (di : nat) (d : Q) : Prop :=
  ∃ dc, det_centers !! di = Some dc ∧ (di ∉ claimed) ∧
    d = hypot (c.1 - dc.1)%Q (c.2 - dc.2)%Q ∧
    ∀ j dcj, det_centers !! j = Some dcj → j ∉ claimed →
      (d <= hypot (c.1 - dcj.1) (c.2 - dcj.2))%Q ∧
      ((j < di)%nat → (d < hypot (c.1 - dcj.1) (c.2 - dcj.2))%Q).

(** The detections claimed by the tracks before index [ti]. *)
Definition claimed_before (choice : list (option nat)) (ti : nat) : gset nat :=
  list_to_set (omap id (take ti choice)).

(** What [best_d], [best_di] hold once the detections of [l] are visited. *)
Definition best_inv (c : Point) (claimed : gset nat) (l : list Point)
    (best_d : xfloat) (best_di : option nat) : Prop :=
  match best_di with
  | None => best_d = PInf ∧ ∀ j, (j < length l)%nat → j ∈ claimed
  | Some i => ∃ d, best_d = Finite d ∧ nearest_unclaimed c l claimed i d
  end.

(** What the body of the outer loop does for track [tr] when the detections
    in [claimed] are taken: [c] is the detection passed to [tr.update], if
    any, [tr'] the track it leaves and [lg] what it logs. *)
Definition step_spec (maxd : Q) (det_centers : list Point)
    (det_bboxes : list BBox) (claimed : gset nat) (tr : Track)
    (c : option nat) (tr' : Track) (lg : list diagnostic) : Prop :=
  match c with
  | Some di =>
      (∃ d, nearest_unclaimed (tr_center tr) det_centers claimed di d ∧
            (d <= maxd)%Q) ∧
      (tr', lg) = Track_update tr (nth di det_bboxes (0, 0, 0, 0))
  | None =>
      (∀ di d, nearest_unclaimed (tr_center tr) det_centers claimed di d →
               ¬ (d <= maxd)%Q) ∧
      tr' = set_missed_frames tr (missed_frames tr + 1) ∧ lg = []
  end.


(** What a caller can see of a track. *)
Definition visible (t : Track) : Z * BBox * Z * Z :=
  (track_id t, bbox t, missed_frames t, hits t).

(** A track as a caller sees it [n] missed frames later. *)
Definition aged (n : Z) (v : Z * BBox * Z * Z) : Z * BBox * Z * Z :=
  (v.1.1.1, v.1.1.2, v.1.2 + n, v.2).

(** The record reported for a track seen as [v], before confidences. *)
Definition report (v : Z * BBox * Z * Z) : Result :=
  {| res_id := v.1.1.1; res_bbox := v.1.1.2; res_conf := None;
     res_class := "person" |}.

Definition stale_report_visible (max_missed : Z) (vs : list (Z * BBox * Z * Z))
    (k : nat) : list Result :=
  report <$> filter (fun v => v.1.2 + Z.of_nat (S k) ≤ max_missed) vs.

(** What frame number [k] (counted from 0) of a run without detections
    reports of the tracks [trs] it started with: those still within the
    budget, without confidence. *)
Definition stale_report (max_missed : Z) (trs : list Track) (k : nat)
  : list Result :=
  result_of
    <$> filter (fun t => missed_frames t + Z.of_nat (S k) ≤ max_missed) trs.

(** The integer midpoint rounded toward zero, as the data model words it. *)
Definition midpoint_toward_zero (a b : Z) : Z := Z.quot (a + b) 2.


Definition strictly_increasing (l : list Z) : Prop := StronglySorted Z.lt l.

(** Every recorded id belongs to an instance that exists. *)
Definition issued_in_range (w : World) : Prop :=
  Forall (fun p : nat * Z => (p.1 < length (instances w))%nat) (world_issued w).

(** What holds of instance [i] as long as no instance is constructed. *)
Definition ids_invariant (i : nat) (w : World) : Prop :=
  1 ≤ _TRACK_ID w ∧
  Forall (fun tid => 1 ≤ tid < _TRACK_ID w) (ids_issued i w) ∧
  strictly_increasing (ids_issued i w) ∧
  ∃ self, instances w !! i = Some self ∧
    map track_id (tracks self) `sublist_of` ids_issued i w.

Definition is_construct (ev : event) : Prop :=
  match ev with
  | Construct _ _ => True
  | Update _ _ => False
  end.

End Vocabulary.

(** ** Sample inputs *)

Module Sample.

(** [PeopleTracker()] with the default gate and budget. *)
Definition tracker0 : PeopleTracker := (PeopleTracker_init 60 10).1.

(** One person at [(0,0,10,10)]; then the tracker after that frame. *)
Definition one_box : list Detection := [detection_of_box 0 0 10 10 (9 # 10)].
Definition tracker1 : PeopleTracker := (update 1 tracker0 one_box).1.1.

(** A far box first, a near box second. *)
Definition far_then_near : list Detection :=
  [detection_of_box 20 0 30 10 (7 # 10); detection_of_box 2 0 12 10 (8 # 10)].

(** The track that frame makes. *)
Definition track1 : Track := Track_init (0, 0, 10, 10) 1.

(** A box out of the gate of [track1]. *)
Definition far_box : list Detection := [detection_of_box 200 0 210 10 (1 # 2)].


(** Two people side by side; then only the second one is detected. *)
Definition two_boxes : list Detection :=
  [detection_of_box 0 0 10 10 (9 # 10); detection_of_box 20 0 30 10 (7 # 10)].
Definition tracker2 : PeopleTracker := (update 1 tracker0 two_boxes).1.1.
Definition second_box_only : list Detection :=
  [detection_of_box 20 0 30 10 (8 # 10)].

(** An instance is constructed while another one is in use. *)
Definition reconstruction : list event :=
  [Construct 60 10; Update 0 one_box; Construct 60 10; Update 0 far_box].

(** The same frames without the second construction. *)
Definition two_frames : list event := [Update 0 one_box; Update 0 far_box].

(** A box reaching left of the image origin, as a detection and as the
    track made from it. *)
Definition negative_detection : Detection :=
  detection_of_box (-3) 0 0 10 (9 # 10).
Definition negative_track : Track := Track_init (-3, 0, 0, 10) 1.

(** The track made from a box whose x coordinates add up to 2^53 + 1. *)
Definition wide_track : Track := Track_init (0, 0, 2 ^ 53 + 1, 10) 1.

End Sample.

(** ** detector.py: what [PeopleDetector.detect] does with the model's output *)

(** [int(x)] on a float: truncation toward zero. *)
Definition py_int (q : Q) : Z := Z.quot (Qnum q) (Zpos (Qden q)).

(** An attribute of a box object as the detector reads it: missing
    ([hasattr] is false and reading it raises [AttributeError]), present
    with a value on which what the detector applies to it raises (a
    conversion by [int] or [float] that fails, a tensor that cannot be
    indexed or holds an entry that is not a finite number), or present with
    a value of finite numbers. *)
Inductive attr (A : Type) : Type :=
  | Missing
  | Unconvertible
  | Attr (a : A).
Arguments Missing {A}.
Arguments Unconvertible {A}.
Arguments Attr {A} a.

(** One element of [results[0].boxes].  [box_cls] is converted by [int],
    [box_conf] and [box_confidence] by [float]; [box_xyxy] is the tensor of
    rows, whose first row is unpacked into four numbers converted by
    [int]. *)
Record RawBox : Type := mkRawBox {
  box_cls : attr Q;
  box_xyxy : attr (list (list Q));
  box_conf : attr Q;
  box_confidence : attr Q
}.

(** What the body of the loop of lines 56-72 does with one box. *)
Inductive parsed : Type :=
  | Skipped
  | Parsed (det : Detection)
  | ParseError.

(** detector.py, line 64: [float(box.conf)] when the box has a [conf]
    attribute, [float(box.confidence)] when it has none; [None]: the
    expression raised. *)
Definition read_conf (box : RawBox) : option Q :=
  match box_conf box with
  | Attr conf => Some conf
  | Unconvertible => None
  | Missing =>
      match box_confidence box with
      | Attr conf => Some conf
      | Unconvertible => None
      | Missing => None
      end
  end.

(** detector.py, lines 57-72: the inner [try] for one box. *)
Definition parse_box (box : RawBox) : parsed :=
  match box_cls box with
  | Attr c =>
      if negb (py_int c =? 0) then Skipped
      else
        match box_xyxy box with
        | Attr (row :: _) =>
            match map py_int row with
            | [x1; y1; x2; y2] =>
                match read_conf box with
                | Some conf => Parsed (detection_of_box x1 y1 x2 y2 conf)
                | None => ParseError
                end
            | _ => ParseError
            end
        | Attr [] => ParseError
        | Unconvertible => ParseError
        | Missing => ParseError
        end
  | Unconvertible => ParseError
  | Missing => ParseError
  end.

(** What the two [logging.exception] calls of [detect] record. *)
Inductive detector_log : Type :=
  | BoxError
  | ResultsError.

(** detector.py, lines 56-72: the loop over the boxes. *)
Fixpoint detect_boxes (boxes : list RawBox) : list Detection * list detector_log :=
  match boxes with
  | [] => ([], [])
  | box :: rest =>
      let '(dets, lg) := detect_boxes rest in
      match parse_box box with
      | Skipped => (dets, lg)
      | Parsed det => (det :: dets, lg)
      | ParseError => (dets, BoxError :: lg)
      end
  end.

(** What [self.model(frame)] gives: it raises, or returns a list of results
    whose [boxes] attribute is a list of boxes or [None]. *)
Inductive model_output : Type :=
  | ModelRaised
  | ModelResults (results : list (option (list RawBox))).

(** detector.py, lines 50-75.  [None]: the call of the model raised, and
    [detect] with it. *)
Definition detect (out : model_output)
  : option (list Detection * list detector_log) :=
  match out with
  | ModelRaised => None
  | ModelResults (Some boxes :: _) => Some (detect_boxes boxes)
  | ModelResults _ => Some ([], [ResultsError])
  end.

(** ** utils.py: [draw_tracked_boxes] *)

(** A dictionary of the list handed to [draw_tracked_boxes]; a missing key
    is [None]. *)
Record TrackDict : Type := mkTrackDict {
  td_id : option Z;
  td_bbox : option BBox;
  td_class : option string;
  td_conf : option Q
}.

(** The dictionaries [PeopleTracker.update] builds have every key. *)
Definition dict_of_result (res : Result) : TrackDict :=
  {| td_id := Some (res_id res); td_bbox := Some (res_bbox res);
     td_class := Some (res_class res); td_conf := res_conf res |}.

Definition Color : Type := Z * Z * Z.

(** The calls made on the frame that went through; the font of
    [cv2.putText] is always [FONT_HERSHEY_SIMPLEX] and is left out. *)
Inductive draw_cmd : Type :=
  | Rectangle (pt1 pt2 : Z * Z) (color : Color) (thickness : Z)
  | PutText (text : string) (org : Z * Z) (fontScale : Q) (color : Color)
      (thickness : Z).

(** utils.py, line 29. *)
Definition track_color (tid : Z) : Color :=
  ((tid * 37) mod 256, (tid * 73) mod 256, (tid * 97) mod 256).

(** [cv2] converts each coordinate of a point to a C [int], and raises
    [cv2.error] when the number does not fit. *)
Definition fits_int (v : Z) : bool := (- 2 ^ 31 <=? v) && (v <? 2 ^ 31).

Definition point_fits (p : Z * Z) : bool := fits_int p.1 && fits_int p.2.

Section Drawing.
(** [f"{conf:.2f}"] *)
Variable format_2f : Q → string.

(** utils.py, lines 21-26; a float always formats, so the fallback of
    line 26 is not reached. *)
Definition track_label (tid : Z) (cls : string) (conf : option Q) : string :=
  let label := ("ID:" +:+ pretty tid +:+ " " +:+ cls)%string in
  match conf with
  | Some c => (label +:+ " " +:+ format_2f c)%string
  | None => label
  end.

(** utils.py, lines 17-32: the body of the loop for one dictionary: the
    calls that went through, and whether the body raised ([KeyError] from
    [tr["bbox"]], [cv2.error] from a call given a point it cannot
    convert). *)
Definition draw_track (tr : TrackDict) : list draw_cmd * bool :=
  match td_bbox tr with
  | None => ([], true)
  | Some (x1, y1, x2, y2) =>
      let tid := default 0 (td_id tr) in
      let cls := default "obj"%string (td_class tr) in
      let label := track_label tid cls (td_conf tr) in
      let color := track_color tid in
      if negb (point_fits (x1, y1) && point_fits (x2, y2)) then ([], true)
      else
        let org := (x1, Z.max (y1 - 10) 10) in
        if negb (point_fits org)
        then ([Rectangle (x1, y1) (x2, y2) color 2], true)
        else ([Rectangle (x1, y1) (x2, y2) color 2;
               PutText label org (1 # 2) color 2], false)
  end.

(** utils.py, lines 9-32: the calls made on the frame, and whether the
    function raised. *)
Fixpoint draw_tracked_boxes (tracks : list TrackDict) : list draw_cmd * bool :=
  match tracks with
  | [] => ([], false)
  | tr :: rest =>
      let '(cmds, raised) := draw_track tr in
      if raised then (cmds, true)
      else
        let '(more, raised') := draw_tracked_boxes rest in
        (cmds ++ more, raised')
  end.

End Drawing.

(** ** main.py: the loop over the frames *)

(** What the [logging.exception] calls reached in one pass of the loop
    record. *)
Inductive main_log : Type :=
  | DetectionError (frame_idx : Z)
  | DrawError (frame_idx : Z)
  | InDetector (l : detector_log)
  | InTracker (d : diagnostic).

(** What one pass of the loop leaves: the tracker and [_TRACK_ID], the
    tracks returned, the calls made on the frame that is written, the log. *)
Record Pass : Type := mkPass {
  p_tracker : PeopleTracker;
  p_track_id : Z;
  p_tracks : list Result;
  p_drawn : list draw_cmd;
  p_log : list main_log
}.

Section MainLoop.
Context {lib : NumLib}.
Variable format_2f : Q → string.

(** main.py, lines 92-111, for the frame number [frame_idx].  [update_frame]
    has a result for every list of detections, so the handler of lines
    103-105 has no counterpart here. *)
Definition main_pass (frame_idx : Z) (g : Z) (tracker : PeopleTracker)
    (out : model_output) : Pass :=
  let '(detections, lg) :=
    match detect out with
    | Some (dets, dlg) => (dets, InDetector <$> dlg)
    | None => ([], [DetectionError frame_idx])
    end in
  let fr := update_frame g tracker detections in
  let '(cmds, raised) :=
    draw_tracked_boxes format_2f (dict_of_result <$> f_results fr) in
  {| p_tracker := (update g tracker detections).1.1;
     p_track_id := f_track_id fr;
     p_tracks := f_results fr;
     p_drawn := cmds;
     p_log := lg ++ (InTracker <$> f_log fr)
              ++ (if raised then [DrawError frame_idx] else []) |}.

(** main.py, lines 83-117: the passes for the frames read, the first one
    numbered [frame_idx + 1]. *)
Fixpoint main_loop (frame_idx : Z) (g : Z) (tracker : PeopleTracker)
    (outs : list model_output) : list Pass :=
  match outs with
  | [] => []
  | out :: rest =>
      let p := main_pass (frame_idx + 1) g tracker out in
      p :: main_loop (frame_idx + 1) (p_track_id p) (p_tracker p) rest
  end.

End MainLoop.

(** ** Vocabulary of the further properties *)

(** The confidence the loop of lines 146-149 leaves on a record with bbox
    [b]: that of the last detection with this bbox, if there is one. *)
Definition last_conf_for (b : BBox) (detections : list Detection) : option Q :=
  last (filter (fun det => det_bbox det = b) detections) ≫= det_conf.

(** The number of tracks the association matched. *)
Definition matched_count (choice : list (option nat)) : nat :=
  length (omap id choice).

(** A box of the class the detector keeps: [int(box.cls) == 0]. *)
Definition is_person (box : RawBox) : Prop :=
  ∃ c, box_cls box = Attr c ∧ py_int c = 0.

(** A box of another class: [int(box.cls) != 0]. *)
Definition other_class (box : RawBox) : Prop :=
  ∃ c, box_cls box = Attr c ∧ py_int c ≠ 0.

(** A person box with a first row [row] of four numbers and the confidence
    [conf], held by its [conf] attribute or, when it has no such attribute,
    by its [confidence] attribute. *)
Definition complete_person (box : RawBox) (row : list Q) (conf : Q) : Prop :=
  is_person box ∧ length row = 4%nat ∧
  (∃ rows, box_xyxy box = Attr (row :: rows)) ∧
  (box_conf box = Attr conf ∨
   (box_conf box = Missing ∧ box_confidence box = Attr conf)).


(** A box that is neither of another class nor a complete person box: its
    class cannot be read, or it is a person box whose coordinates or
    confidence cannot. *)
Definition unreadable (box : RawBox) : Prop :=
  ¬ other_class box ∧ ¬ ∃ row conf, complete_person box row conf.

(** A number that fits in a C [int]. *)
Definition in_int_range (v : Z) : Prop := - 2 ^ 31 ≤ v < 2 ^ 31.

(** A box whose four coordinates fit in a C [int]. *)
Definition drawable_bbox (b : BBox) : Prop :=
  in_int_range b.1.1.1 ∧ in_int_range b.1.1.2 ∧
  in_int_range b.1.2 ∧ in_int_range b.2.

(** A dictionary that has a ["bbox"], with coordinates that fit. *)
Definition drawable (tr : TrackDict) : Prop :=
  ∃ b, td_bbox tr = Some b ∧ drawable_bbox b.


(** The detections the loop of main.py hands to the tracker for one frame:
    the detector's, none when the detector raised. *)
Definition detections_of (out : model_output) : list Detection :=
  match detect out with
  | Some (dets, _) => dets
  | None => []
  end.

(** What a tracker used alone keeps from its construction on. *)
Definition alone_invariant (g : Z) (self : PeopleTracker) : Prop :=
  1 ≤ g ∧
  Forall (fun t => 0 ≤ missed_frames t ≤ max_missed self ∧ 1 ≤ hits t)
    (tracks self) ∧
  strictly_increasing (map track_id (tracks self)) ∧
  Forall (fun tid => 1 ≤ tid < g) (map track_id (tracks self)).

(** [f"{conf:.2f}"] on an exact rational, ties to the even digit. *)
Definition round_half_even (q : Q) : Z :=
  let f := Qfloor q in
  match ((q - inject_Z f) ?= (1 # 2))%Q with
  | Lt => f
  | Gt => f + 1
  | Eq => if Z.even f then f else f + 1
  end.

Definition format_2f_exact (q : Q) : string :=
  let n := round_half_even (Qabs q * 100) in
  ((if Qle_bool 0 q then "" else "-") +:+ pretty (n / 100)%Z +:+ "."
   +:+ (if (n mod 100 <? 10)%Z then "0" else "")
   +:+ pretty (n mod 100)%Z)%string.

(** ** Further sample inputs *)

Module SampleIO.

(** A person, a car, a person whose box has three numbers, a person
    without any confidence attribute. *)
Definition person_box : RawBox :=
  {| box_cls := Attr 0%Q; box_xyxy := Attr [[(1 # 2); 0; (21 # 2); 10]%Q];
     box_conf := Attr (9 # 10); box_confidence := Missing |}.
Definition car_box : RawBox :=
  {| box_cls := Attr 2%Q; box_xyxy := Missing; box_conf := Missing;
     box_confidence := Missing |}.
Definition short_box : RawBox :=
  {| box_cls := Attr 0%Q; box_xyxy := Attr [[0; 0; 10]%Q];
     box_conf := Attr (9 # 10); box_confidence := Missing |}.
Definition no_conf_box : RawBox :=
  {| box_cls := Attr 0%Q; box_xyxy := Attr [[0; 0; 10; 10]%Q];
     box_conf := Missing; box_confidence := Missing |}.

(** A person whose [conf] attribute is there but does not convert, next to
    a [confidence] attribute that would. *)
Definition bad_conf_box : RawBox :=
  {| box_cls := Attr 0%Q; box_xyxy := Attr [[0; 0; 10; 10]%Q];
     box_conf := Unconvertible; box_confidence := Attr (9 # 10) |}.

(** A person without [conf], with a [confidence]. *)
Definition old_style_box : RawBox :=
  {| box_cls := Attr 0%Q; box_xyxy := Attr [[0; 0; 10; 10]%Q];
     box_conf := Missing; box_confidence := Attr (9 # 10) |}.

Definition mixed_boxes : list RawBox :=
  [car_box; person_box; short_box; no_conf_box].

(** A dictionary without ["bbox"] between two complete ones. *)
Definition broken_dicts : list TrackDict :=
  [ {| td_id := Some 1; td_bbox := Some (0, 0, 10, 10);
       td_class := Some "person"%string; td_conf := None |};
    {| td_id := Some 2; td_bbox := None;
       td_class := Some "person"%string; td_conf := None |};
    {| td_id := Some 3; td_bbox := Some (20, 0, 30, 10);
       td_class := Some "person"%string; td_conf := None |} ].

(** A dictionary whose box reaches column 2^31 between two that can be
    drawn. *)
Definition far_dicts : list TrackDict :=
  [ {| td_id := Some 1; td_bbox := Some (0, 0, 10, 10);
       td_class := Some "person"%string; td_conf := None |};
    {| td_id := Some 2; td_bbox := Some (0, 0, 2 ^ 31, 10);
       td_class := Some "person"%string; td_conf := None |};
    {| td_id := Some 3; td_bbox := Some (20, 0, 30, 10);
       td_class := Some "person"%string; td_conf := None |} ].

(** A frame on which the model reports a person whose box reaches column
    2^31. *)
Definition far_person_frame : model_output :=
  ModelResults
    [Some [ {| box_cls := Attr 0%Q;
               box_xyxy := Attr [[0; 0; inject_Z (2 ^ 31); 10]%Q];
               box_conf := Attr (9 # 10); box_confidence := Missing |} ]].

(** Trackers holding [Sample.track1] under a negative budget and under a
    negative gate. *)
Definition no_budget : PeopleTracker :=
  {| tracks := [Sample.track1]; max_distance := 60; max_missed := -1 |}.
Definition no_gate : PeopleTracker :=
  {| tracks := [Sample.track1]; max_distance := -1; max_missed := 10 |}.


(** Three frames for a new tracker. *)
Definition three_frames : list (list Detection) :=
  [Sample.two_boxes; Sample.far_box; []].

End SampleIO.

(** ** Proof steps *)

(** Closes a goal [n ∉ X] from [H : m ∉ X] when [m = n] is arithmetic. *)
Ltac same_index H :=
  refine (eq_ind _ (fun n : nat => n ∉ _) H _ _); lia.

(** ** Comparisons *)

Lemma Qltb_lt (a b : Q) : Qltb a b = true ↔ (a < b)%Q.
Proof.
  unfold Qltb. rewrite negb_true_iff. split.
  - intros H. apply Qnot_le_lt. intros Hle.
    apply Qle_bool_iff in Hle. congruence.
  - intros H. destruct (Qle_bool b a) eqn:E; [|done].
    apply Qle_bool_iff in E. exfalso. by apply (Qlt_not_le a b).
Qed.

Lemma Qltb_ge (a b : Q) : Qltb a b = false ↔ (b <= a)%Q.
Proof.
  unfold Qltb. rewrite negb_false_iff. apply Qle_bool_iff.
Qed.

(** ** The inner loop *)

Section Nearest.
Context {lib : NumLib}.

Lemma best_inv_skip c claimed pre dc bd bdi :
  length pre ∈ claimed →
  best_inv c claimed pre bd bdi →
  best_inv c claimed (pre ++ [dc]) bd bdi.
Proof.
  intros Hcl Hinv. destruct bdi as [i|]; simpl in *.
  - destruct Hinv as (d & -> & dci & Hi & Hni & -> & Hmin).
    exists (_distance c dci). split; [done|].
    exists dci. split_and!; try done.
    + by apply lookup_app_l_Some.
    + intros j dcj Hj Hnj.
      apply lookup_app_Some in Hj as [Hj|[Hge Hj]]; [by apply Hmin|].
      apply list_lookup_singleton_Some in Hj as [Hj _].
      assert (j = length pre) as -> by lia. done.
  - destruct Hinv as [-> Hall]. split; [done|].
    intros j Hj. rewrite length_app in Hj. simpl in Hj.
    destruct (decide (j = length pre)) as [->|]; [done|].
    apply Hall. lia.
Qed.

Lemma best_inv_take c claimed pre dc bd bdi :
  length pre ∉ claimed →
  xlt (_distance c dc) bd = true →
  best_inv c claimed pre bd bdi →
  best_inv c claimed (pre ++ [dc]) (Finite (_distance c dc)) (Some (length pre)).
Proof.
  intros Hcl Hlt Hinv. simpl.
  exists (_distance c dc). split; [done|].
  exists dc. split_and!; try done.
  - rewrite lookup_app_r; [|lia]. by rewrite Nat.sub_diag.
  - intros j dcj Hj Hnj.
    apply lookup_app_Some in Hj as [Hj|[Hge Hj]].
    + destruct bdi as [i|]; simpl in Hinv.
      * destruct Hinv as (d & -> & dci & Hi & Hni & -> & Hmin).
        simpl in Hlt. apply Qltb_lt in Hlt.
        destruct (Hmin j dcj Hj Hnj) as [Hle _].
        assert (_distance c dc < _distance c dcj)%Q
          by (eapply Qlt_le_trans; eauto).
        split; [by apply Qlt_le_weak|done].
      * destruct Hinv as [_ Hall]. exfalso. apply Hnj, Hall.
        by eapply lookup_lt_Some.
    + apply list_lookup_singleton_Some in Hj as [Hj <-].
      split; [apply Qle_refl|lia].
Qed.

Lemma best_inv_keep c claimed pre dc bd bdi :
  length pre ∉ claimed →
  xlt (_distance c dc) bd = false →
  best_inv c claimed pre bd bdi →
  best_inv c claimed (pre ++ [dc]) bd bdi.
Proof.
  intros Hcl Hlt Hinv. destruct bdi as [i|]; simpl in *.
  - destruct Hinv as (d & -> & dci & Hi & Hni & -> & Hmin).
    simpl in Hlt. apply Qltb_ge in Hlt.
    exists (_distance c dci). split; [done|].
    exists dci. split_and!; try done.
    + by apply lookup_app_l_Some.
    + intros j dcj Hj Hnj.
      apply lookup_app_Some in Hj as [Hj|[Hge Hj]]; [by apply Hmin|].
      apply list_lookup_singleton_Some in Hj as [Hj <-].
      split; [done|]. apply lookup_lt_Some in Hi. lia.
  - destruct Hinv as [-> _]. done.
Qed.

Lemma nearest_inv c claimed rest : ∀ pre bd bdi,
  best_inv c claimed pre bd bdi →
  best_inv c claimed (pre ++ rest)
    (nearest c (length pre) rest claimed bd bdi).1
    (nearest c (length pre) rest claimed bd bdi).2.
Proof.
  induction rest as [|dc rest IH]; intros pre bd bdi Hinv.
  - by rewrite app_nil_r.
  - simpl nearest. rewrite (cons_middle dc pre rest), app_assoc.
    assert (S (length pre) = length (pre ++ [dc])) as ->
      by (rewrite length_app; simpl; lia).
    case_bool_decide as Hcl.
    + apply IH. by apply best_inv_skip.
    + destruct (xlt (_distance c dc) bd) eqn:Hlt.
      * apply IH. by eapply best_inv_take.
      * apply IH. by apply best_inv_keep.
Qed.

(** The inner loop, run from the start. *)
Lemma nearest_spec c det_centers claimed :
  best_inv c claimed det_centers
    (nearest c 0 det_centers claimed PInf None).1
    (nearest c 0 det_centers claimed PInf None).2.
Proof.
  apply (nearest_inv c claimed det_centers [] PInf None).
  split; [done|]. simpl. lia.
Qed.

(** The nearest unclaimed detection is unique. *)
Lemma nearest_unclaimed_unique c det_centers claimed di d di' d' :
  nearest_unclaimed c det_centers claimed di d →
  nearest_unclaimed c det_centers claimed di' d' →
  di = di'.
Proof.
  intros (dc & Hi & Hni & -> & Hmin) (dc' & Hi' & Hni' & -> & Hmin').
  destruct (Hmin di' dc' Hi' Hni') as [Hle Hlt].
  destruct (Hmin' di dc Hi Hni) as [Hle' Hlt'].
  destruct (lt_eq_lt_dec di di') as [[Hc|Hc]|Hc]; [|done|].
  - exfalso. apply Hlt' in Hc. by apply (Qlt_not_le _ _ Hc).
  - exfalso. apply Hlt in Hc. by apply (Qlt_not_le _ _ Hc).
Qed.

End Nearest.

(** ** The outer loop *)

Section Associate.
Context {lib : NumLib}.

Lemma assoc_step_spec maxd dcs dbs st ti tr :
  ∃ c tr' lg,
    as_choice (assoc_step maxd dcs dbs st ti tr) = as_choice st ++ [c] ∧
    as_tracks (assoc_step maxd dcs dbs st ti tr) = as_tracks st ++ [tr'] ∧
    as_log (assoc_step maxd dcs dbs st ti tr) = as_log st ++ lg ∧
    as_matched_det_idx (assoc_step maxd dcs dbs st ti tr)
      = as_matched_det_idx st ∪ list_to_set (omap id [c]) ∧
    step_spec maxd dcs dbs (as_matched_det_idx st) tr c tr' lg.
Proof.
  unfold assoc_step.
  pose proof (nearest_spec (tr_center tr) dcs (as_matched_det_idx st)) as Hn.
  destruct (nearest (tr_center tr) 0 dcs (as_matched_det_idx st) PInf None)
    as [bd [di|]]; simpl in Hn.
  - destruct Hn as (d & -> & Hd). simpl xle.
    destruct (Qle_bool d maxd) eqn:Hle.
    + destruct (Track_update tr (nth di dbs (0, 0, 0, 0))) as [tr' lg] eqn:Hu.
      exists (Some di), tr', lg. simpl. split_and!; try done.
      * set_solver.
      * exists d. split; [done|]. by apply Qle_bool_iff.
    + exists None, (set_missed_frames tr (missed_frames tr + 1)), [].
      simpl. split_and!; try done.
      * by rewrite app_nil_r.
      * set_solver.
      * intros di' d' Hd' Hle'.
        assert (di = di') as <- by (eapply nearest_unclaimed_unique; eauto).
        destruct Hd as (? & ? & ? & -> & _), Hd' as (? & ? & ? & -> & _).
        simplify_eq. apply Qle_bool_iff in Hle'. congruence.
  - destruct Hn as [-> Hall].
    exists None, (set_missed_frames tr (missed_frames tr + 1)), [].
    simpl. split_and!; try done.
    + by rewrite app_nil_r.
    + set_solver.
    + intros di' d' (dc & Hi & Hni & _) _. apply Hni, Hall.
      by eapply lookup_lt_Some.
Qed.

Lemma claimed_cons (md : gset nat) (c : option nat) (l : list (option nat)) :
  (md ∪ list_to_set (omap id [c])) ∪ list_to_set (omap id l)
  = md ∪ list_to_set (omap id (c :: l)).
Proof. destruct c; simpl; set_solver. Qed.

Lemma associate_inv maxd dcs dbs : ∀ trs st ti,
  ∃ cs ts lgs,
    as_choice (associate maxd dcs dbs st ti trs) = as_choice st ++ cs ∧
    as_tracks (associate maxd dcs dbs st ti trs) = as_tracks st ++ ts ∧
    as_log (associate maxd dcs dbs st ti trs) = as_log st ++ concat lgs ∧
    as_matched_det_idx (associate maxd dcs dbs st ti trs)
      = as_matched_det_idx st ∪ list_to_set (omap id cs) ∧
    length cs = length trs ∧ length ts = length trs ∧
    ∀ k tr, trs !! k = Some tr →
      ∃ c tr' lg, cs !! k = Some c ∧ ts !! k = Some tr' ∧ lgs !! k = Some lg ∧
        step_spec maxd dcs dbs
          (as_matched_det_idx st ∪ list_to_set (omap id (take k cs))) tr c tr' lg.
Proof.
  induction trs as [|tr rest IH]; intros st ti.
  - exists [], [], []. simpl. rewrite !app_nil_r.
    split_and!; try done. set_solver.
  - simpl associate.
    destruct (assoc_step_spec maxd dcs dbs st ti tr)
      as (c & tr' & lg & Hc & Ht & Hl & Hm & Hs).
    destruct (IH (assoc_step maxd dcs dbs st ti tr) (S ti))
      as (cs & ts & lgs & Hc' & Ht' & Hl' & Hm' & Hlc & Hlt & Hall).
    exists (c :: cs), (tr' :: ts), (lg :: lgs).
    rewrite Hc', Ht', Hl', Hm', Hc, Ht, Hl, Hm. simpl concat.
    rewrite <- !app_assoc. simpl. split_and!; try done.
    + apply claimed_cons.
    + by rewrite Hlc.
    + by rewrite Hlt.
    + intros [|k] tr0 Hk; simpl in Hk.
      * simplify_eq. exists c, tr', lg. split_and!; try done.
        simpl. by rewrite (right_id_L ∅ (∪)).
      * destruct (Hall k tr0 Hk) as (c0 & tr0' & lg0 & ? & ? & ? & Hs0).
        exists c0, tr0', lg0. split_and!; try done.
        rewrite Hm, claimed_cons in Hs0. done.
Qed.

End Associate.

(** ** One frame *)

Section OneFrame.
Context {lib : NumLib}.

Lemma Track_predict_visible tr :
  track_id (Track_predict tr).1 = track_id tr ∧
  bbox (Track_predict tr).1 = bbox tr ∧
  missed_frames (Track_predict tr).1 = missed_frames tr ∧
  hits (Track_predict tr).1 = hits tr.
Proof. unfold Track_predict. by destruct (lib_predict (kf tr)). Qed.

Lemma predict_all_fst trs :
  (predict_all trs).1 = map (fun tr => (Track_predict tr).1) trs.
Proof.
  induction trs as [|tr rest IH]; [done|]. simpl.
  destruct (Track_predict tr) as [tr' lg].
  destruct (predict_all rest) as [rest' lg']. simpl in *. by rewrite IH.
Qed.


Lemma update_frame_unfold g self detections :
  update_frame g self detections =
  let predicted := (predict_all (tracks self)).1 in
  let st := associate (max_distance self) (map det_center detections)
              (map det_bbox detections) assoc_start 0 predicted in
  let sp := spawn (as_matched_det_idx st) 0 detections g in
  let trs := prune (max_missed self) (as_tracks st ++ sp.1) in
  {| f_predicted := predicted; f_assoc := st; f_new := sp.1;
     f_track_id := sp.2; f_tracks := trs;
     f_results := attach_all detections (map result_of trs);
     f_log := (predict_all (tracks self)).2 ++ as_log st |}.
Proof.
  unfold update_frame. destruct (predict_all (tracks self)) as [p lg]. simpl.
  by destruct (spawn _ 0 detections g).
Qed.

(** The association of one frame, track by track. *)
Lemma frame_assoc_spec g self detections :
  let fr := update_frame g self detections in
  let cs := as_choice (f_assoc fr) in
  length cs = length (tracks self) ∧
  length (as_tracks (f_assoc fr)) = length (tracks self) ∧
  as_matched_det_idx (f_assoc fr) = claimed_before cs (length cs) ∧
  ∀ ti tr, f_predicted fr !! ti = Some tr →
    ∃ c tr' lg, cs !! ti = Some c ∧ as_tracks (f_assoc fr) !! ti = Some tr' ∧
      lg ⊆ f_log fr ∧
      step_spec (max_distance self) (map det_center detections)
        (map det_bbox detections) (claimed_before cs ti) tr c tr' lg.
Proof.
  rewrite update_frame_unfold. simpl.
  destruct (associate_inv (max_distance self) (map det_center detections)
              (map det_bbox detections) (predict_all (tracks self)).1 assoc_start 0)
    as (cs & ts & lgs & Hc & Ht & Hl & Hm & Hlc & Hlt & Hall).
  simpl in Hc, Ht, Hl, Hm. rewrite Hc, Ht, Hl, Hm.
  rewrite predict_all_fst, length_map in Hlc, Hlt.
  unfold claimed_before. rewrite firstn_all.
  split_and!; try done.
  - set_solver.
  - intros ti tr Hti.
    destruct (Hall ti tr Hti) as (c & tr' & lg & ? & ? & Hlg & Hs).
    exists c, tr', lg. split_and!; try done.
    + intros e He. apply elem_of_app. right.
      apply list_elem_of_In, in_concat. exists lg.
      split; apply list_elem_of_In; [by eapply list_elem_of_lookup_2|done].
    + simpl in Hs. by rewrite (left_id_L ∅ (∪)) in Hs.
Qed.

Lemma predicted_lookup g self detections ti tr :
  f_predicted (update_frame g self detections) !! ti = Some tr ↔
  ∃ tr0, tracks self !! ti = Some tr0 ∧ tr = (Track_predict tr0).1.
Proof.
  rewrite update_frame_unfold. simpl. rewrite predict_all_fst, list_lookup_fmap.
  destruct (tracks self !! ti) as [tr0|]; simpl; naive_solver.
Qed.

End OneFrame.

(** ** Association *)

Section Association.
Context {lib : NumLib}.

Lemma claimed_before_elem (cs : list (option nat)) (ti di : nat) :
  di ∈ claimed_before cs ti ↔ ∃ tj, (tj < ti)%nat ∧ cs !! tj = Some (Some di).
Proof.
  unfold claimed_before. rewrite elem_of_list_to_set, list_elem_of_omap. split.
  - intros (c & Hc & Hid). simpl in Hid. subst c.
    apply list_elem_of_lookup in Hc as [tj Hc].
    apply lookup_take_Some in Hc as [Hc Hlt]. eauto.
  - intros (tj & Hlt & Hc). exists (Some di). split; [|done].
    apply list_elem_of_lookup. exists tj. by apply lookup_take_Some.
Qed.

Lemma claimed_before_S (cs : list (option nat)) (ti : nat) (c : option nat) :
  cs !! ti = Some c →
  claimed_before cs (S ti) = list_to_set (omap id [c]) ∪ claimed_before cs ti.
Proof.
  intros Hc. unfold claimed_before. rewrite (take_S_r _ _ _ Hc), omap_app.
  rewrite list_to_set_app_L. set_solver.
Qed.

Lemma predicted_length g self detections :
  length (f_predicted (update_frame g self detections)) = length (tracks self).
Proof.
  rewrite update_frame_unfold. simpl. by rewrite predict_all_fst, length_map.
Qed.

(** A claimed detection was within the gate of the track that claimed it,
    and was unclaimed until then. *)
Lemma choice_sound g self detections ti di :
  as_choice (f_assoc (update_frame g self detections)) !! ti = Some (Some di) →
  ∃ tr d, f_predicted (update_frame g self detections) !! ti = Some tr ∧
    nearest_unclaimed (tr_center tr) (map det_center detections)
      (claimed_before (as_choice (f_assoc (update_frame g self detections))) ti) di d ∧
    (d <= max_distance self)%Q.
Proof.
  intros Hc.
  destruct (frame_assoc_spec g self detections) as (Hlen & _ & _ & Hall).
  assert (is_Some (f_predicted (update_frame g self detections) !! ti)) as [tr Htr].
  { apply lookup_lt_is_Some. rewrite predicted_length, <- Hlen.
    by eapply lookup_lt_Some. }
  destruct (Hall ti tr Htr) as (c & tr' & lg & Hc' & _ & _ & Hs).
  rewrite Hc in Hc'. simplify_eq. destruct Hs as [(d & Hn & Hle) _].
  by exists tr, d.
Qed.

Lemma choice_injective g self detections ti tj di :
  as_choice (f_assoc (update_frame g self detections)) !! ti = Some (Some di) →
  as_choice (f_assoc (update_frame g self detections)) !! tj = Some (Some di) →
  ti = tj.
Proof.
  intros Hi Hj.
  destruct (choice_sound _ _ _ _ _ Hi) as (? & ? & _ & (? & _ & Hni & _) & _).
  destruct (choice_sound _ _ _ _ _ Hj) as (? & ? & _ & (? & _ & Hnj & _) & _).
  destruct (lt_eq_lt_dec ti tj) as [[Hlt|Heq]|Hlt]; [|done|]; exfalso.
  - apply Hnj, claimed_before_elem. eauto.
  - apply Hni, claimed_before_elem. eauto.
Qed.

(** The distance the inner loop compares is [hypot] of the coordinate
    differences. *)
Lemma closest_unclaimed_distance c dcs claimed di d :
  nearest_unclaimed c dcs claimed di d ↔ closest_unclaimed c dcs claimed di d.
Proof. reflexivity. Qed.

(** The centre the association reads off a track is the one the prediction
    of the frame left in its filter. *)
Lemma predicted_centroid_center tr0 :
  tr_center (Track_predict tr0).1 = predicted_centroid tr0.
Proof.
  unfold Track_predict, predicted_centroid, after_predict, tr_center.
  by destruct (lib_predict (kf tr0)).
Qed.

(** C1: tracks are visited in stored order; each takes, among the detections
    not claimed by the tracks before it, the one whose centroid is nearest
    to the centroid the prediction left in the track's filter, by [hypot]
    of the coordinate differences, the lowest index winning ties; the match
    is accepted only if that distance is at most [max_distance], and then
    the detection is claimed and no later track gets it; otherwise the
    track is unmatched and the claimed set is unchanged. *)
Theorem greedy_association g self detections ti tr0 :
  let fr := update_frame g self detections in
  let cs := as_choice (f_assoc fr) in
  let c := predicted_centroid tr0 in
  tracks self !! ti = Some tr0 →
  match cs !! ti with
  | Some (Some di) =>
      (∃ d, closest_unclaimed c (map det_center detections)
              (claimed_before cs ti) di d ∧ (d <= max_distance self)%Q) ∧
      claimed_before cs (S ti) = {[di]} ∪ claimed_before cs ti ∧
      (∀ tj, cs !! tj = Some (Some di) → tj = ti) ∧
      di ∈ as_matched_det_idx (f_assoc fr)
  | Some None =>
      (∀ di d, closest_unclaimed c (map det_center detections)
                 (claimed_before cs ti) di d → ¬ (d <= max_distance self)%Q) ∧
      claimed_before cs (S ti) = claimed_before cs ti
  | None => False
  end.
Proof.
  intros fr cs c Hti.
  destruct (frame_assoc_spec g self detections) as (Hlen & _ & Hm & Hall).
  destruct (Hall ti (Track_predict tr0).1) as (ch & tr' & lg & Hc & _ & _ & Hs);
    [apply predicted_lookup; eauto|].
  fold fr cs in Hc, Hs, Hm, Hlen. rewrite Hc.
  pose proof (claimed_before_S cs ti ch Hc) as HS.
  destruct ch as [di|]; unfold step_spec in Hs; simpl in HS;
    rewrite predicted_centroid_center in Hs; fold c in Hs.
  - destruct Hs as [(d & Hn & Hle) _]. split_and!.
    + exists d. split; [by apply closest_unclaimed_distance|done].
    + rewrite HS. set_solver.
    + intros tj Hj. by eapply choice_injective.
    + rewrite Hm. apply claimed_before_elem. exists ti.
      split; [|done]. by eapply lookup_lt_Some.
  - destruct Hs as [Hn _]. split; [|rewrite HS; set_solver].
    intros di d Hd. apply (Hn di d). by apply closest_unclaimed_distance.
Qed.

End Association.

Lemma greedy_association_witness :
  let fr := update_frame 2 Sample.tracker1 Sample.far_then_near in
  tracks Sample.tracker1 !! 0%nat = Some Sample.track1 ∧
  match as_choice (f_assoc fr) !! 0%nat with
  | Some (Some di) =>
      (∃ d, closest_unclaimed (predicted_centroid Sample.track1)
              (map det_center Sample.far_then_near)
              (claimed_before (as_choice (f_assoc fr)) 0) di d ∧ (d <= 60)%Q) ∧
      claimed_before (as_choice (f_assoc fr)) 1
        = {[di]} ∪ claimed_before (as_choice (f_assoc fr)) 0 ∧
      (∀ tj, as_choice (f_assoc fr) !! tj = Some (Some di) → tj = 0%nat) ∧
      di ∈ as_matched_det_idx (f_assoc fr)
  | Some None =>
      (∀ di d, closest_unclaimed (predicted_centroid Sample.track1)
                 (map det_center Sample.far_then_near)
                 (claimed_before (as_choice (f_assoc fr)) 0) di d → ¬ (d <= 60)%Q) ∧
      claimed_before (as_choice (f_assoc fr)) 1
        = claimed_before (as_choice (f_assoc fr)) 0
  | None => False
  end.
Proof.
  intros fr.
  assert (tracks Sample.tracker1 !! 0%nat = Some Sample.track1) as Hti
    by (vm_compute; reflexivity).
  split; [exact Hti|].
  apply (greedy_association 2 Sample.tracker1 Sample.far_then_near 0
           Sample.track1).
  exact Hti.
Defined.

Section SoleCandidate.
Context {lib : NumLib}.



End SoleCandidate.



(** ** Tracks: creation, measurement update, reporting *)

Section Tracks.
Context {lib : NumLib}.

Lemma Track_init_visible b tid : visible (Track_init b tid) = (tid, b, 0, 1).
Proof. done. Qed.

Lemma Track_update_id tr b : track_id (Track_update tr b).1 = track_id tr.
Proof. unfold Track_update. by destruct (lib_update _ _). Qed.

Lemma Track_update_returned tr b k :
  lib_update (kf tr) [(bbox_center b).1; (bbox_center b).2] = Returned k →
  Track_update tr b =
    ({| track_id := track_id tr; kf := k; bbox := b; missed_frames := 0;
        hits := hits tr + 1 |}, []).
Proof. unfold Track_update. by intros ->. Qed.


Lemma spawn_spec md : ∀ detections di g,
  (spawn md di detections g).2
    = g + Z.of_nat (length (spawn md di detections g).1) ∧
  map track_id (spawn md di detections g).1
    = seqZ g (Z.of_nat (length (spawn md di detections g).1)) ∧
  (∀ k det, detections !! k = Some det → ((di + k)%nat ∉ md) →
     ∃ tid, Track_init (det_bbox det) tid ∈ (spawn md di detections g).1) ∧
  (∀ t, t ∈ (spawn md di detections g).1 →
     ∃ k det tid, detections !! k = Some det ∧ ((di + k)%nat ∉ md) ∧
       t = Track_init (det_bbox det) tid).
Proof.
  induction detections as [|det rest IH]; intros di g.
  - simpl. split_and!; [lia|done|done|]. intros t Ht. by apply elem_of_nil in Ht.
  - simpl spawn. case_bool_decide as Hcl.
    + destruct (IH (S di) g) as (Hg & Hids & Hall & Hnew). split_and!; try done.
      * intros [|k] det' Hk Hfree; simpl in Hk.
        -- simplify_eq. exfalso. apply Hfree. by rewrite Nat.add_0_r.
        -- apply (Hall k det' Hk).
           same_index Hfree.
      * intros t Ht. destruct (Hnew t Ht) as (k & det' & tid & Hk & Hfree & ->).
        exists (S k), det', tid. split_and!; try done.
        same_index Hfree.
    + destruct (IH (S di) (g + 1)) as (Hg & Hids & Hall & Hnew).
      destruct (spawn md (S di) rest (g + 1)) as [new g'] eqn:Hsp.
      simpl in *. split_and!.
      * lia.
      * rewrite seqZ_cons by lia. f_equal.
        rewrite Hids. f_equal; lia.
      * intros [|k] det' Hk Hfree; simpl in Hk.
        -- simplify_eq. exists g. apply list_elem_of_here.
        -- destruct (Hall k det' Hk) as [tid Hin];
             [same_index Hfree|].
           exists tid. by apply list_elem_of_further.
      * intros t [->|Ht]%elem_of_cons.
        -- exists 0%nat, det, g. split_and!; try done.
           same_index Hcl.
        -- destruct (Hnew t Ht) as (k & det' & tid & Hk & Hfree & ->).
           exists (S k), det', tid. split_and!; try done.
           same_index Hfree.
Qed.

Lemma attach_conf_keeps det rs :
  map res_id (attach_conf det rs) = map res_id rs ∧
  map res_bbox (attach_conf det rs) = map res_bbox rs ∧
  map res_class (attach_conf det rs) = map res_class rs.
Proof.
  unfold attach_conf. rewrite !map_map.
  split_and!; apply map_ext; intros r; by case_bool_decide.
Qed.

Lemma attach_all_keeps detections : ∀ rs,
  map res_id (attach_all detections rs) = map res_id rs ∧
  map res_bbox (attach_all detections rs) = map res_bbox rs ∧
  map res_class (attach_all detections rs) = map res_class rs.
Proof.
  unfold attach_all.
  induction detections as [|det rest IH]; intros rs; [done|]. simpl.
  destruct (IH (attach_conf det rs)) as (-> & -> & ->).
  apply attach_conf_keeps.
Qed.

(** The result list has one record per surviving track, in order. *)
Lemma results_follow_tracks g self detections :
  map res_id (f_results (update_frame g self detections))
    = map track_id (f_tracks (update_frame g self detections)) ∧
  map res_bbox (f_results (update_frame g self detections))
    = map bbox (f_tracks (update_frame g self detections)) ∧
  map res_class (f_results (update_frame g self detections))
    = map (fun _ => "person"%string) (f_tracks (update_frame g self detections)).
Proof.
  rewrite update_frame_unfold. simpl.
  destruct (attach_all_keeps detections
    (map result_of (prune (max_missed self)
       (as_tracks (associate (max_distance self) (map det_center detections)
          (map det_bbox detections) assoc_start 0 (predict_all (tracks self)).1)
        ++ (spawn (as_matched_det_idx (associate (max_distance self)
              (map det_center detections) (map det_bbox detections) assoc_start 0
              (predict_all (tracks self)).1)) 0 detections g).1))))
    as (-> & -> & ->).
  by rewrite !map_map.
Qed.

Lemma frame_tracks g self detections :
  f_tracks (update_frame g self detections)
  = prune (max_missed self)
      (as_tracks (f_assoc (update_frame g self detections))
       ++ f_new (update_frame g self detections)).
Proof. by rewrite update_frame_unfold. Qed.

Lemma frame_new g self detections :
  f_new (update_frame g self detections)
  = (spawn (as_matched_det_idx (f_assoc (update_frame g self detections)))
       0 detections g).1 ∧
  f_track_id (update_frame g self detections)
  = (spawn (as_matched_det_idx (f_assoc (update_frame g self detections)))
       0 detections g).2.
Proof. by rewrite update_frame_unfold. Qed.

(** What one frame does to the track stored at index [ti]. *)
Lemma frame_track_fate g self detections ti tr0 :
  tracks self !! ti = Some tr0 →
  ∃ c tr' lg,
    as_choice (f_assoc (update_frame g self detections)) !! ti = Some c ∧
    as_tracks (f_assoc (update_frame g self detections)) !! ti = Some tr' ∧
    lg ⊆ f_log (update_frame g self detections) ∧
    step_spec (max_distance self) (map det_center detections)
      (map det_bbox detections)
      (claimed_before (as_choice (f_assoc (update_frame g self detections))) ti)
      (Track_predict tr0).1 c tr' lg.
Proof.
  intros Hti.
  destruct (frame_assoc_spec g self detections) as (_ & _ & _ & Hall).
  apply Hall, predicted_lookup. eauto.
Qed.

Lemma chosen_detection (detections : list Detection) c claimed di d :
  nearest_unclaimed c (map det_center detections) claimed di d →
  ∃ det, detections !! di = Some det ∧
    nth di (map det_bbox detections) (0, 0, 0, 0) = det_bbox det.
Proof.
  intros (dc & Hdc & _). rewrite list_lookup_fmap in Hdc.
  destruct (detections !! di) as [det|] eqn:Hdet; [|done].
  exists det. split; [done|].
  apply nth_lookup_Some. by rewrite list_lookup_fmap, Hdet.
Qed.

Lemma attach_all_lookup detections : ∀ (rs : list Result) i r,
  rs !! i = Some r →
  attach_all detections rs !! i
  = Some {| res_id := res_id r; res_bbox := res_bbox r;
            res_conf :=
              match last (filter (fun det => det_bbox det = res_bbox r) detections) with
              | Some det => det_conf det
              | None => res_conf r
              end;
            res_class := res_class r |}.
Proof.
  unfold attach_all.
  induction detections as [|det rest IH]; intros rs i r Hr.
  - simpl. by destruct r.
  - simpl fold_left.
    assert (attach_conf det rs !! i
            = Some (if bool_decide (res_bbox r = det_bbox det)
                    then {| res_id := res_id r; res_bbox := res_bbox r;
                            res_conf := det_conf det; res_class := res_class r |}
                    else r)) as Hstep.
    { unfold attach_conf.
      change (map ?f rs) with (f <$> rs). by rewrite list_lookup_fmap, Hr. }
    rewrite (IH _ _ _ Hstep). rewrite filter_cons.
    case_bool_decide as Heq.
    + simpl. rewrite decide_True by done. rewrite last_cons.
      by destruct (last (filter _ rest)).
    + rewrite decide_False by done. done.
Qed.

(** The record reported for the track at position [i]. *)
Lemma frame_result_lookup g self detections i t :
  f_tracks (update_frame g self detections) !! i = Some t →
  f_results (update_frame g self detections) !! i
  = Some {| res_id := track_id t; res_bbox := bbox t;
            res_conf := last_conf_for (bbox t) detections;
            res_class := "person" |}.
Proof.
  intros Ht. rewrite update_frame_unfold in Ht |- *. simpl in Ht |- *.
  erewrite attach_all_lookup;
    [|change (map ?f ?l) with (f <$> l); by rewrite list_lookup_fmap, Ht].
  simpl. unfold last_conf_for. by destruct (last _).
Qed.




End Tracks.

(** ** Bounding boxes and failures of the filter *)

Section Boxes.
Context {lib : NumLib}.




(** C10: every record of the result list has class ["person"]. *)
Theorem class_always_person g self detections :
  Forall (fun res => res_class res = "person"%string)
    (f_results (update_frame g self detections)).
Proof.
  destruct (results_follow_tracks g self detections) as (_ & _ & Hcl).
  apply Forall_forall. intros res Hres.
  apply (list_elem_of_fmap_2 res_class) in Hres.
  change (res_class <$> ?l) with (map res_class l) in Hres.
  rewrite Hcl in Hres. apply list_elem_of_In, in_map_iff in Hres.
  by destruct Hres as (? & <- & _).
Qed.

End Boxes.

(** ** The properties on sample frames *)






(** C2: a record should carry a confidence only when its track was matched
    or created in the frame, and then the confidence of its own detection.
    The code copies a detection's confidence into every record with the
    same bbox: on these two frames the first track takes the only
    detection of the second frame, the second track is left unmatched, and
    still it is reported with that detection's confidence. *)
Theorem stale_track_reports_confidence :
  let fr := update_frame 3 Sample.tracker2 Sample.second_box_only in
  visible <$> tracks Sample.tracker2
    = [(1, (0, 0, 10, 10), 0, 1); (2, (20, 0, 30, 10), 0, 1)] ∧
  as_choice (f_assoc fr) = [Some 0%nat; None] ∧
  f_new fr = [] ∧
  visible <$> f_tracks fr
    = [(1, (20, 0, 30, 10), 0, 2); (2, (20, 0, 30, 10), 1, 1)] ∧
  f_results fr
    = [{| res_id := 1; res_bbox := (20, 0, 30, 10); res_conf := Some (8 # 10);
          res_class := "person" |};
       {| res_id := 2; res_bbox := (20, 0, 30, 10); res_conf := Some (8 # 10);
          res_class := "person" |}].
Proof. vm_compute. by split_and!. Qed.

(** ** Frames without detections *)

Section Stale.
Context {lib : NumLib}.

Lemma filter_fmap_comm {A B} (f : A → B) (P : B → Prop)
    `{!∀ y, Decision (P y)} (l : list A) :
  filter P (f <$> l) = f <$> filter (fun x => P (f x)) l.
Proof.
  induction l as [|x l IH]; [done|]. rewrite fmap_cons, !filter_cons.
  destruct (decide (P (f x))); by rewrite IH.
Qed.

Lemma fmap_filter_ext {A B} (f g : A → B) (P Q : A → Prop)
    `{!∀ x, Decision (P x), !∀ x, Decision (Q x)} (l : list A) :
  (∀ x, P x ↔ Q x) → (∀ x, Q x → f x = g x) →
  f <$> filter P l = g <$> filter Q l.
Proof.
  intros HPQ Hfg. induction l as [|x l IH]; [done|]. rewrite !filter_cons.
  destruct (decide (P x)) as [HP|HP], (decide (Q x)) as [HQ|HQ].
  - rewrite !fmap_cons, IH. f_equal. by apply Hfg.
  - exfalso. by apply HQ, HPQ.
  - exfalso. by apply HP, HPQ.
  - done.
Qed.

Lemma associate_nil maxd : ∀ trs st ti,
  as_tracks (associate maxd [] [] st ti trs)
    = as_tracks st
      ++ ((fun tr => set_missed_frames tr (missed_frames tr + 1)) <$> trs) ∧
  as_matched_det_idx (associate maxd [] [] st ti trs) = as_matched_det_idx st ∧
  as_choice (associate maxd [] [] st ti trs)
    = as_choice st ++ ((fun _ => None) <$> trs).
Proof.
  induction trs as [|tr rest IH]; intros st ti.
  - simpl. by rewrite !app_nil_r.
  - simpl associate.
    destruct (IH (assoc_step maxd [] [] st ti tr) (S ti)) as (-> & -> & ->).
    unfold assoc_step. simpl. by rewrite <- !app_assoc.
Qed.

(** One frame without detections: every track ages by one and the ones
    over the budget go. *)
Lemma empty_frame g self :
  visible <$> f_tracks (update_frame g self [])
    = aged 1 <$> filter (fun v => v.1.2 + 1 ≤ max_missed self)
                   (visible <$> tracks self) ∧
  f_track_id (update_frame g self []) = g ∧
  f_results (update_frame g self [])
    = report <$> (visible <$> f_tracks (update_frame g self [])).
Proof.
  rewrite update_frame_unfold. simpl.
  destruct (associate_nil (max_distance self) (predict_all (tracks self)).1
              assoc_start 0) as (-> & _ & _).
  simpl. rewrite app_nil_r, predict_all_fst. split_and!; [|done|].
  - unfold prune. rewrite <- !list_fmap_compose.
    rewrite !filter_fmap_comm, <- !list_fmap_compose.
    apply fmap_filter_ext; intros tr; simpl;
      destruct (Track_predict_visible tr) as (Hi & Hb & Hm & Hh).
    + by rewrite Hm.
    + intros _. unfold aged, visible. simpl. by rewrite Hi, Hb, Hm, Hh.
  - by rewrite <- !list_fmap_compose.
Qed.

Lemma aged_compose (maxm n : Z) (vs : list (Z * BBox * Z * Z)) :
  0 ≤ n →
  aged n <$> filter (fun v => v.1.2 + n ≤ maxm)
               (aged 1 <$> filter (fun v => v.1.2 + 1 ≤ maxm) vs)
  = aged (1 + n) <$> filter (fun v => v.1.2 + (1 + n) ≤ maxm) vs.
Proof.
  intros Hn. rewrite filter_fmap_comm, <- list_fmap_compose, list_filter_filter.
  apply fmap_filter_ext; intros v; simpl; [lia|].
  intros _. unfold aged. simpl.
  by replace (v.1.2 + 1 + n) with (v.1.2 + (1 + n)) by lia.
Qed.

Lemma stale_report_shift (maxm : Z) (vs : list (Z * BBox * Z * Z)) (k : nat) :
  stale_report_visible maxm
    (aged 1 <$> filter (fun v => v.1.2 + 1 ≤ maxm) vs) k
  = stale_report_visible maxm vs (S k).
Proof.
  unfold stale_report_visible.
  rewrite filter_fmap_comm, <- list_fmap_compose, list_filter_filter.
  apply fmap_filter_ext; intros v; simpl; [lia|done].
Qed.

Lemma stale_report_first (maxm : Z) (vs : list (Z * BBox * Z * Z)) :
  report <$> (aged 1 <$> filter (fun v => v.1.2 + 1 ≤ maxm) vs)
  = stale_report_visible maxm vs 0.
Proof.
  unfold stale_report_visible. rewrite <- list_fmap_compose.
  by apply list_fmap_ext.
Qed.

Lemma stale_report_of_tracks (maxm : Z) (trs : list Track) (k : nat) :
  stale_report maxm trs k = stale_report_visible maxm (visible <$> trs) k.
Proof.
  unfold stale_report, stale_report_visible.
  by rewrite filter_fmap_comm, <- list_fmap_compose.
Qed.

Lemma run_frames_cons g self detections rest :
  run_frames g self (detections :: rest)
  = (let fr := update_frame g self detections in
     let self' := {| tracks := f_tracks fr; max_distance := max_distance self;
                     max_missed := max_missed self |} in
     let r := run_frames (f_track_id fr) self' rest in
     (r.1.1, r.1.2, f_results fr :: r.2)).
Proof.
  simpl. unfold update.
  by destruct (run_frames _ _ rest) as [[? ?] ?].
Qed.

(** [S n] frames without detections. *)
Lemma empty_run (n : nat) : ∀ g self,
  (run_frames g self (replicate (S n) [])).1.2 = g ∧
  max_missed (run_frames g self (replicate (S n) [])).1.1 = max_missed self ∧
  visible <$> tracks (run_frames g self (replicate (S n) [])).1.1
    = aged (Z.of_nat (S n))
        <$> filter (fun v => v.1.2 + Z.of_nat (S n) ≤ max_missed self)
              (visible <$> tracks self) ∧
  (run_frames g self (replicate (S n) [])).2
    = stale_report_visible (max_missed self) (visible <$> tracks self)
        <$> seq 0 (S n).
Proof.
  induction n as [|n IH]; intros g self.
  - simpl replicate. rewrite run_frames_cons.
    destruct (empty_frame g self) as (Hv & Hg & Hr). simpl.
    rewrite Hg, Hr, Hv, stale_report_first. done.
  - rewrite replicate_S, run_frames_cons.
    destruct (empty_frame g self) as (Hv & Hg & Hr).
    cbv zeta. rewrite Hg.
    destruct (IH g {| tracks := f_tracks (update_frame g self []);
                      max_distance := max_distance self;
                      max_missed := max_missed self |})
      as (Hg' & Hm' & Hv' & Hr').
    cbn [fst snd tracks max_missed] in *.
    split_and!; [done|done| |].
    + rewrite Hv', Hv, aged_compose by lia.
      replace (1 + Z.of_nat (S n)) with (Z.of_nat (S (S n))) by lia. done.
    + rewrite Hr', Hr, Hv, stale_report_first.
      change (seq 0 (S (S n))) with (0%nat :: seq 1 (S n)).
      rewrite fmap_cons. f_equal.
      rewrite <- (fmap_S_seq 0 (S n)), <- list_fmap_compose.
      apply list_fmap_ext. intros _ k _. apply stale_report_shift.
Qed.

End Stale.

Section Counts.
Context {lib : NumLib}.

(** The counts of missed frames never go below zero. *)
Lemma missed_frames_nonneg g self detections :
  Forall (fun t => 0 ≤ missed_frames t) (tracks self) →
  Forall (fun t => 0 ≤ missed_frames t)
    (f_tracks (update_frame g self detections)).
Proof.
  intros Hpos. rewrite frame_tracks. unfold prune.
  apply Forall_forall. intros t [_ Ht]%list_elem_of_filter.
  apply elem_of_app in Ht as [Ht|Ht].
  - apply list_elem_of_lookup in Ht as [ti Hti].
    destruct (frame_assoc_spec g self detections) as (_ & Hlen & _ & _).
    assert (is_Some (tracks self !! ti)) as [tr0 Htr0].
    { apply lookup_lt_is_Some. rewrite <- Hlen. by eapply lookup_lt_Some. }
    destruct (frame_track_fate g self detections ti tr0 Htr0)
      as (c & tr' & lg & _ & Ht' & _ & Hs).
    rewrite Hti in Ht'. simplify_eq.
    rewrite Forall_forall in Hpos.
    assert (0 ≤ missed_frames tr0) as H0
      by (eapply Hpos, list_elem_of_lookup_2; done).
    destruct (Track_predict_visible tr0) as (_ & _ & Hm & _).
    destruct c as [di|]; simpl in Hs.
    + destruct Hs as [_ Hu]. unfold Track_update in Hu.
      destruct (lib_update _ _); simplify_eq; simpl; lia.
    + destruct Hs as (_ & -> & _). simpl. lia.
  - rewrite (proj1 (frame_new _ _ _)) in Ht.
    destruct (spawn_spec (as_matched_det_idx (f_assoc (update_frame g self detections)))
                detections 0 g) as (_ & _ & _ & Hnew).
    by destruct (Hnew t Ht) as (k & det & tid & _ & _ & ->).
Qed.

End Counts.

Section Budget.
Context {lib : NumLib}.

(** C4: a track left unmatched has its missed_frames raised by one and is
    kept in the frame's track list, which the result list follows record by
    record, exactly when the new count is at most [max_missed]; over frames
    without detections, frame [k] (from 0)
    reports exactly the tracks whose count is by then still at most
    [max_missed]; after [max_missed + 1] such frames no track is left. *)
Theorem stale_tracks_pruned g self :
  Forall (fun t => 0 ≤ missed_frames t) (tracks self) →
  0 ≤ max_missed self →
  (∀ detections ti tr0,
     tracks self !! ti = Some tr0 →
     as_choice (f_assoc (update_frame g self detections)) !! ti = Some None →
     ∃ tr', as_tracks (f_assoc (update_frame g self detections)) !! ti = Some tr' ∧
       visible tr' = aged 1 (visible tr0) ∧
       (tr' ∈ f_tracks (update_frame g self detections)
        ↔ missed_frames tr0 + 1 ≤ max_missed self) ∧
       map res_id (f_results (update_frame g self detections))
         = map track_id (f_tracks (update_frame g self detections))) ∧
  (∀ n k, (k < n)%nat →
     (run_frames g self (replicate n [])).2 !! k
       = Some (stale_report (max_missed self) (tracks self) k)) ∧
  tracks (run_frames g self
            (replicate (Z.to_nat (max_missed self + 1)) [])).1.1 = [] ∧
  (run_frames g self (replicate (Z.to_nat (max_missed self + 1)) [])).2
    !! Z.to_nat (max_missed self) = Some [].
Proof.
  intros Hpos Hmax.
  assert (∀ n k, (k < n)%nat →
     (run_frames g self (replicate n [])).2 !! k
       = Some (stale_report (max_missed self) (tracks self) k)) as Hrun.
  { intros [|n] k Hk; [lia|].
    destruct (empty_run n g self) as (_ & _ & _ & ->).
    rewrite list_lookup_fmap, lookup_seq_lt by done. simpl.
    by rewrite stale_report_of_tracks. }
  assert (∀ n, max_missed self < Z.of_nat n →
     filter (fun v : Z * BBox * Z * Z => v.1.2 + Z.of_nat n ≤ max_missed self)
       (visible <$> tracks self) = []) as Hgone.
  { intros n Hn.
    destruct (filter _ (visible <$> tracks self)) as [|v l] eqn:Hf; [done|].
    assert (v ∈ filter (fun v : Z * BBox * Z * Z =>
                          v.1.2 + Z.of_nat n ≤ max_missed self)
                  (visible <$> tracks self)) as Hin
      by (rewrite Hf; apply list_elem_of_here).
    apply list_elem_of_filter in Hin as [Hle Hin].
    apply list_elem_of_fmap in Hin as (t & -> & Ht).
    rewrite Forall_forall in Hpos. specialize (Hpos t Ht).
    simpl in Hle. lia. }
  split_and!.
  - intros detections ti tr0 Hti Hc.
    destruct (frame_track_fate g self detections ti tr0 Hti)
      as (c & tr' & lg & Hc' & Ht & _ & Hs).
    rewrite Hc in Hc'. simplify_eq. simpl in Hs. destruct Hs as (_ & -> & _).
    destruct (Track_predict_visible tr0) as (Hi & Hb & Hm & Hh).
    rewrite Hm in Ht. eexists. split; [done|]. split; [|split].
    + unfold visible, aged. simpl. by rewrite Hi, Hb, Hh.
    + rewrite frame_tracks. unfold prune. rewrite list_elem_of_filter.
      simpl. split; [by intros [? _]|]. intros Hle.
      split; [done|]. apply elem_of_app. left.
      by eapply list_elem_of_lookup_2.
    + apply results_follow_tracks.
  - done.
  - replace (Z.to_nat (max_missed self + 1)) with (S (Z.to_nat (max_missed self)))
      by lia.
    destruct (empty_run (Z.to_nat (max_missed self)) g self) as (_ & _ & Hv & _).
    rewrite Hgone in Hv by lia. by apply fmap_nil_inv in Hv.
  - rewrite Hrun by lia. f_equal.
    rewrite stale_report_of_tracks. unfold stale_report_visible.
    by rewrite Hgone by lia.
Qed.

End Budget.

Lemma stale_tracks_pruned_witness :
  Forall (fun t => 0 ≤ missed_frames t) (tracks Sample.tracker1) ∧
  0 ≤ max_missed Sample.tracker1 ∧
  (run_frames 2 Sample.tracker1 (replicate 11 [])).2 !! 9%nat
    = Some (stale_report 10 (tracks Sample.tracker1) 9) ∧
  tracks (run_frames 2 Sample.tracker1 (replicate 11 [])).1.1 = [] ∧
  (run_frames 2 Sample.tracker1 (replicate 11 [])).2 !! 10%nat = Some [].
Proof.
  assert (Forall (fun t => 0 ≤ missed_frames t) (tracks Sample.tracker1)) as H1.
  { change (tracks Sample.tracker1) with [Sample.track1].
    apply Forall_singleton. simpl. lia. }
  assert (0 ≤ max_missed Sample.tracker1) as H2 by (simpl; lia).
  destruct (stale_tracks_pruned 2 Sample.tracker1 H1 H2) as (_ & Hk & Hend & Hlast).
  split_and!; [exact H1|exact H2| |exact Hend|exact Hlast].
  apply (Hk 11%nat 9%nat). lia.
Defined.

(** The scenario of the specification: one person seen at a fixed place,
    then moved by two pixels, then lost for eleven frames. *)
Example lost_person_scenario :
  let out := (run_frames 1 Sample.tracker0
                (Sample.one_box :: [detection_of_box 2 0 12 10 (8 # 10)]
                 :: replicate 11 [])).2 in
  out !! 0%nat = Some [{| res_id := 1; res_bbox := (0, 0, 10, 10);
                          res_conf := Some (9 # 10); res_class := "person" |}] ∧
  out !! 1%nat = Some [{| res_id := 1; res_bbox := (2, 0, 12, 10);
                          res_conf := Some (8 # 10); res_class := "person" |}] ∧
  out !! 2%nat = Some [{| res_id := 1; res_bbox := (2, 0, 12, 10);
                          res_conf := None; res_class := "person" |}] ∧
  out !! 11%nat = Some [{| res_id := 1; res_bbox := (2, 0, 12, 10);
                           res_conf := None; res_class := "person" |}] ∧
  out !! 12%nat = Some [].
Proof. vm_compute. by split_and!. Qed.

(** ** Identities *)

Section Identities.
Context {lib : NumLib}.

Lemma seqZ_increasing (n : nat) : ∀ m, strictly_increasing (seqZ m (Z.of_nat n)).
Proof.
  unfold strictly_increasing.
  induction n as [|n IH]; intros m; [constructor|].
  rewrite seqZ_S. apply StronglySorted_app_2; [|done|repeat constructor].
  intros x1 x2 Hx1 Hx2. apply elem_of_seqZ in Hx1.
  apply list_elem_of_singleton in Hx2. lia.
Qed.

(** The association leaves every id where it was. *)
Lemma assoc_ids g self detections :
  map track_id (as_tracks (f_assoc (update_frame g self detections)))
  = map track_id (tracks self).
Proof.
  destruct (frame_assoc_spec g self detections) as (_ & Hlen & _ & _).
  apply list_eq. intros ti. rewrite !list_lookup_fmap.
  destruct (tracks self !! ti) as [tr0|] eqn:Hti.
  - destruct (frame_track_fate g self detections ti tr0 Hti)
      as (c & tr' & lg & _ & -> & _ & Hs).
    simpl. f_equal. destruct (Track_predict_visible tr0) as (Hid & _).
    destruct c as [di|]; simpl in Hs.
    + destruct Hs as [_ Hu].
      rewrite <- Hid, <- (Track_update_id (Track_predict tr0).1
                            (nth di (map det_bbox detections) (0, 0, 0, 0))).
      by rewrite <- Hu.
    + by destruct Hs as (_ & -> & _).
  - apply lookup_ge_None in Hti. rewrite <- Hlen in Hti.
    apply lookup_ge_None in Hti. by rewrite Hti.
Qed.

(** The ids of one frame's new tracks are the next values of the counter. *)
Lemma frame_new_ids g self detections :
  map track_id (f_new (update_frame g self detections))
    = seqZ g (Z.of_nat (length (f_new (update_frame g self detections)))) ∧
  f_track_id (update_frame g self detections)
    = g + Z.of_nat (length (f_new (update_frame g self detections))).
Proof.
  destruct (frame_new g self detections) as [-> ->].
  destruct (spawn_spec (as_matched_det_idx (f_assoc (update_frame g self detections)))
              detections 0 g) as (Hg & Hids & _).
  done.
Qed.

Lemma frame_track_ids g self detections :
  map track_id (f_tracks (update_frame g self detections))
    `sublist_of` map track_id (tracks self)
                 ++ map track_id (f_new (update_frame g self detections)).
Proof.
  rewrite frame_tracks, <- (assoc_ids g self detections), <- map_app.
  unfold prune.
  apply (fmap_sublist track_id), sublist_filter.
Qed.

Lemma ids_issued_app i issued j (new : list Track) :
  map snd (filter (fun p : nat * Z => p.1 = i)
             (issued ++ map (fun tr => (j, track_id tr)) new))
  = map snd (filter (fun p : nat * Z => p.1 = i) issued)
    ++ (if decide (j = i) then map track_id new else []).
Proof.
  rewrite filter_app, map_app. f_equal.
  induction new as [|tr new IH]; [by destruct (decide (j = i))|].
  simpl. rewrite filter_cons. simpl.
  destruct (decide (j = i)); simpl; by rewrite IH.
Qed.

Lemma issued_in_range_step w ev :
  issued_in_range w → issued_in_range (world_step w ev).
Proof.
  unfold issued_in_range. intros Hw. destruct ev as [md mm|j detections]; simpl.
  - rewrite length_app. simpl. eapply Forall_impl; [done|]. simpl. lia.
  - destruct (instances w !! j) as [self|] eqn:Hj; [|done]. simpl.
    rewrite length_insert. apply Forall_app. split; [done|].
    apply Forall_forall. intros p Hp.
    apply list_elem_of_In, in_map_iff in Hp as (tr & <- & _). simpl.
    by eapply lookup_lt_Some.
Qed.

Lemma issued_in_range_run evs : ∀ w,
  issued_in_range w → issued_in_range (world_run w evs).
Proof.
  induction evs as [|ev evs IH]; intros w Hw; [done|].
  simpl. by apply IH, issued_in_range_step.
Qed.

Lemma ids_invariant_construct w md mm :
  issued_in_range w →
  ids_invariant (length (instances w)) (world_step w (Construct md mm)).
Proof.
  intros Hw. unfold ids_invariant, ids_issued. simpl.
  assert (filter (fun p : nat * Z => p.1 = length (instances w)) (world_issued w)
          = []) as ->.
  { destruct (filter _ (world_issued w)) as [|p l] eqn:Hf; [done|].
    assert (p ∈ filter (fun p : nat * Z => p.1 = length (instances w))
                  (world_issued w)) as Hin
      by (rewrite Hf; apply list_elem_of_here).
    apply list_elem_of_filter in Hin as [Heq Hin].
    unfold issued_in_range in Hw. rewrite Forall_forall in Hw.
    specialize (Hw p Hin). lia. }
  simpl. split_and!; [lia|constructor|constructor|].
  eexists. split.
  - rewrite lookup_app_r by lia. by rewrite Nat.sub_diag.
  - done.
Qed.

Lemma ids_invariant_update i w j detections :
  ids_invariant i w → ids_invariant i (world_step w (Update j detections)).
Proof.
  intros (Hg & Hbound & Hsorted & self & Hself & Hsub). simpl.
  destruct (instances w !! j) as [selfj|] eqn:Hj; [|by repeat split; eauto].
  destruct (frame_new_ids (_TRACK_ID w) selfj detections) as [Hids Hnext].
  unfold ids_invariant, ids_issued in *. simpl.
  rewrite ids_issued_app, Hnext.
  destruct (decide (j = i)) as [->|Hne].
  - rewrite Hj in Hself. simplify_eq. rewrite Hids. split_and!.
    + lia.
    + apply Forall_app. split.
      * eapply Forall_impl; [done|]. simpl. lia.
      * apply Forall_forall. intros x Hx%elem_of_seqZ. lia.
    + apply StronglySorted_app_2; [|done|apply seqZ_increasing].
      intros x1 x2 Hx1 Hx2%elem_of_seqZ.
      rewrite Forall_forall in Hbound. specialize (Hbound x1 Hx1). lia.
    + eexists. split.
      * apply list_lookup_insert_eq. by eapply lookup_lt_Some.
      * simpl. rewrite <- Hids.
        etrans; [apply frame_track_ids|]. by apply sublist_app.
  - rewrite app_nil_r. split_and!.
    + lia.
    + eapply Forall_impl; [done|]. simpl. lia.
    + done.
    + exists self. split; [|done]. by rewrite list_lookup_insert_ne.
Qed.

Lemma ids_invariant_run i evs : ∀ w,
  Forall (fun ev => ¬ is_construct ev) evs →
  ids_invariant i w → ids_invariant i (world_run w evs).
Proof.
  induction evs as [|ev evs IH]; intros w Hevs Hw; [done|].
  apply Forall_cons in Hevs as [Hev Hevs]. simpl. apply IH; [done|].
  destruct ev as [md mm|j detections]; [by destruct Hev|].
  by apply ids_invariant_update.
Qed.

(** C3, amended: from the construction of an instance on, and as long as no
    other instance is constructed, the ids it gives to new tracks are
    positive and strictly increasing, and the tracks it holds carry
    pairwise distinct ids among those. *)
Theorem ids_increase_until_next_construction evs1 md mm evs2 :
  let i := length (instances (world_run world_start evs1)) in
  let w := world_run world_start (evs1 ++ Construct md mm :: evs2) in
  Forall (fun ev => ¬ is_construct ev) evs2 →
  Forall (fun tid => 1 ≤ tid) (ids_issued i w) ∧
  strictly_increasing (ids_issued i w) ∧
  ∃ self, instances w !! i = Some self ∧
    map track_id (tracks self) `sublist_of` ids_issued i w ∧
    NoDup (map track_id (tracks self)).
Proof.
  intros i w Hevs.
  assert (ids_invariant i w) as (_ & Hbound & Hsorted & self & Hself & Hsub).
  { unfold w, world_run. rewrite fold_left_app. simpl.
    apply ids_invariant_run; [done|].
    apply ids_invariant_construct, issued_in_range_run. constructor. }
  split_and!; [|done|].
  - eapply Forall_impl; [exact Hbound|]. simpl. lia.
  - exists self. split_and!; [done|done|].
    eapply sublist_NoDup; [|exact Hsub].
    clear -Hsorted. unfold strictly_increasing in Hsorted.
    induction Hsorted as [|x l _ IH Hx]; constructor; [|done].
    intros Hin. rewrite Forall_forall in Hx. specialize (Hx x Hin). lia.
Qed.

End Identities.

(** C3 as stated fails: constructing a second instance resets the shared
    counter, and the first instance then gives the id 1 again, to a track
    that lives next to the first one. *)
Lemma ids_reused_counterexample :
  let w := world_run world_start Sample.reconstruction in
  ids_issued 0 w = [1; 1] ∧
  ¬ strictly_increasing (ids_issued 0 w) ∧
  (fun self => visible <$> tracks self) <$> instances w !! 0%nat
    = Some [(1, (0, 0, 10, 10), 1, 1); (1, (200, 0, 210, 10), 0, 1)].
Proof.
  intros w.
  assert (ids_issued 0 w = [1; 1]) as Hids by (vm_compute; reflexivity).
  split_and!.
  - exact Hids.
  - rewrite Hids. unfold strictly_increasing.
    intros [Hlt _]%StronglySorted_cons.
    apply Forall_cons in Hlt as [Hlt _]. lia.
  - vm_compute. reflexivity.
Qed.

Lemma ids_increase_until_next_construction_witness :
  let w := world_run world_start ([] ++ Construct 60 10 :: Sample.two_frames) in
  Forall (fun ev => ¬ is_construct ev) Sample.two_frames ∧
  Forall (fun tid => 1 ≤ tid) (ids_issued 0 w) ∧
  strictly_increasing (ids_issued 0 w) ∧
  ∃ self, instances w !! 0%nat = Some self ∧
    map track_id (tracks self) `sublist_of` ids_issued 0 w ∧
    NoDup (map track_id (tracks self)).
Proof.
  intros w.
  assert (Forall (fun ev => ¬ is_construct ev) Sample.two_frames) as Hevs
    by (repeat constructor; simpl; tauto).
  split; [exact Hevs|].
  exact (ids_increase_until_next_construction [] 60 10 Sample.two_frames Hevs).
Defined.

(** ** Centroids *)

(** An integer of at most 53 bits, and 2^53 itself, converts to [float]
    without rounding. *)
Lemma round_to_bits_exact (p a : Z) :
  0 < p → 0 ≤ a ≤ 2 ^ p → round_to_bits p a = a.
Proof.
  intros Hp [Ha Hle]. unfold round_to_bits.
  destruct (Z.leb_spec (Z.log2 a + 1 - p) 0) as [He|He]; [done|].
  assert (0 < a) as Hpos.
  { destruct (decide (a = 0)) as [->|]; [|lia]. simpl in He. lia. }
  assert (2 ^ p ≤ a) as Hge by (apply Z.log2_le_pow2; lia).
  assert (a = 2 ^ p) as -> by lia.
  rewrite Z.log2_pow2 by lia.
  replace (p + 1 - p) with 1 by lia. change (2 ^ 1) with 2.
  change (2 ^ (1 - 1)) with 1.
  assert (2 ^ p = 2 ^ (p - 1) * 2) as ->.
  { replace p with (Z.succ (p - 1)) at 1 by lia.
    rewrite Z.pow_succ_r by lia. lia. }
  rewrite Z.div_mul, Z.mod_mul by lia. simpl. done.
Qed.

Lemma float_of_int_exact (n : Z) :
  Z.abs n ≤ 2 ^ 53 → float_of_int n = inject_Z n.
Proof.
  intros Hn. unfold float_of_int.
  rewrite round_to_bits_exact by lia. f_equal. lia.
Qed.

Lemma track_center_of_init (x1 y1 x2 y2 tid : Z) :
  tr_center (Track_init (x1, y1, x2, y2) tid)
  = ((float_of_int (x1 + x2) / 2)%Q, (float_of_int (y1 + y2) / 2)%Q).
Proof. reflexivity. Qed.

(** C9, amended: the centroid of a detection is the integer midpoint of its
    box rounded down (toward minus infinity); this is the midpoint rounded
    toward zero when the coordinate sum is not negative or is even.  The
    state of a track starts from the float quotient of the coordinate sum
    by 2.0, which is the exact midpoint, not rounded at all, as long as the
    sum has an absolute value of at most 2^53. *)
Theorem detection_centroid_rounds_down x1 y1 x2 y2 conf tid :
  ∃ cx cy : Z,
    det_center (detection_of_box x1 y1 x2 y2 conf) = (inject_Z cx, inject_Z cy) ∧
    2 * cx ≤ x1 + x2 < 2 * cx + 2 ∧
    2 * cy ≤ y1 + y2 < 2 * cy + 2 ∧
    (0 ≤ x1 + x2 ∨ Z.even (x1 + x2) = true → cx = midpoint_toward_zero x1 x2) ∧
    (0 ≤ y1 + y2 ∨ Z.even (y1 + y2) = true → cy = midpoint_toward_zero y1 y2) ∧
    (Z.abs (x1 + x2) ≤ 2 ^ 53 →
     ((tr_center (Track_init (x1, y1, x2, y2) tid)).1 * 2 == inject_Z (x1 + x2))%Q) ∧
    (Z.abs (y1 + y2) ≤ 2 ^ 53 →
     ((tr_center (Track_init (x1, y1, x2, y2) tid)).2 * 2 == inject_Z (y1 + y2))%Q).
Proof.
  assert (∀ a, 2 * (a / 2) ≤ a < 2 * (a / 2) + 2) as Hfloor.
  { intros a. pose proof (Z.div_mod a 2 ltac:(lia)).
    pose proof (Z.mod_pos_bound a 2 ltac:(lia)). lia. }
  assert (∀ a b, 0 ≤ a + b ∨ Z.even (a + b) = true →
                 (a + b) / 2 = midpoint_toward_zero a b) as Hquot.
  { intros a b [Hpos|Heven]; unfold midpoint_toward_zero.
    - symmetry. by apply Z.quot_div_nonneg.
    - apply Z.even_spec in Heven as [k ->].
      rewrite (Z.mul_comm 2 k), Z.div_mul, Z.quot_mul by lia. done. }
  assert (∀ n, Z.abs n ≤ 2 ^ 53 → (float_of_int n / 2 * 2 == inject_Z n)%Q)
    as Hexact.
  { intros n Hn. rewrite (float_of_int_exact n Hn). field. }
  exists ((x1 + x2) / 2), ((y1 + y2) / 2).
  split; [done|]. split; [apply Hfloor|]. split; [apply Hfloor|].
  split; [apply Hquot|]. split; [apply Hquot|].
  rewrite track_center_of_init. cbn [fst snd]. split; apply Hexact.
Qed.

(** The bound is the one of the format: the box [(0, 0, 2^53 + 1, 10)]
    starts its track at x = 2^52, half a pixel left of its midpoint. *)
Example track_center_beyond_53_bits :
  bbox Sample.wide_track = (0, 0, 2 ^ 53 + 1, 10) ∧
  ((tr_center Sample.wide_track).1 == inject_Z (2 ^ 52))%Q ∧
  ¬ ((tr_center Sample.wide_track).1 * 2 == inject_Z (0 + (2 ^ 53 + 1)))%Q.
Proof.
  split_and!.
  - reflexivity.
  - vm_compute. reflexivity.
  - intros H. vm_compute in H. discriminate.
Qed.

(** C9 as stated fails on a box whose coordinate sum is negative and odd:
    the detection's centroid is -2 where rounding toward zero gives -1, and
    the track's own centre is -3/2. *)
Lemma detection_centroid_counterexample :
  det_bbox Sample.negative_detection = (-3, 0, 0, 10) ∧
  det_center Sample.negative_detection = (inject_Z (-2), inject_Z 5) ∧
  midpoint_toward_zero (-3) 0 = -1 ∧
  ¬ ((det_center Sample.negative_detection).1
     == inject_Z (midpoint_toward_zero (-3) 0))%Q ∧
  ((tr_center Sample.negative_track).1 == -3 # 2)%Q ∧
  ¬ ((tr_center Sample.negative_track).1
     == inject_Z (midpoint_toward_zero (-3) 0))%Q.
Proof.
  split_and!; try reflexivity.
  - intros H. vm_compute in H. discriminate.
  - intros H. vm_compute in H. discriminate.
Qed.

Lemma detection_centroid_rounds_down_witness :
  ∃ cx cy : Z,
    det_center (detection_of_box 0 0 10 10 (9 # 10)) = (inject_Z cx, inject_Z cy) ∧
    2 * cx ≤ 0 + 10 < 2 * cx + 2 ∧
    2 * cy ≤ 0 + 10 < 2 * cy + 2 ∧
    cx = midpoint_toward_zero 0 10 ∧
    cy = midpoint_toward_zero 0 10 ∧
    ((tr_center Sample.track1).1 * 2 == inject_Z (0 + 10))%Q ∧
    ((tr_center Sample.track1).2 * 2 == inject_Z (0 + 10))%Q.
Proof.
  destruct (detection_centroid_rounds_down 0 0 10 10 (9 # 10) 1)
    as (cx & cy & Hc & Hx & Hy & Hqx & Hqy & Hfx & Hfy).
  exists cx, cy.
  split; [exact Hc|]. split; [exact Hx|]. split; [exact Hy|].
  split; [apply Hqx; left; lia|]. split; [apply Hqy; left; lia|].
  split; [apply Hfx|apply Hfy]; vm_compute; discriminate.
Defined.

(** * Further properties of the code *)

(** ** Confidences *)

Section Confidences.
Context {lib : NumLib}.

Lemma last_filter_unique (detections : list Detection) di det :
  NoDup (map det_bbox detections) →
  detections !! di = Some det →
  last (filter (fun d => det_bbox d = det_bbox det) detections) = Some det.
Proof.
  intros Hnd Hdet.
  assert (filter (fun d => det_bbox d = det_bbox det) detections = [det]) as ->;
    [|done].
  revert di Hnd Hdet.
  induction detections as [|d rest IH]; intros di Hnd Hdet; [done|].
  simpl in Hnd. apply NoDup_cons in Hnd as [Hnotin Hnd]. rewrite filter_cons.
  destruct di as [|di]; simpl in Hdet.
  - simplify_eq. rewrite decide_True by done. f_equal.
    destruct (filter _ rest) as [|d' l] eqn:Hf; [done|]. exfalso.
    assert (d' ∈ filter (fun d => det_bbox d = det_bbox det) rest) as Hin
      by (rewrite Hf; apply list_elem_of_here).
    apply list_elem_of_filter in Hin as [Heq Hin]. apply Hnotin.
    rewrite <- Heq. apply list_elem_of_In, in_map, list_elem_of_In, Hin.
  - rewrite decide_False; [by eapply IH|].
    intros Heq. apply Hnotin. rewrite Heq.
    apply list_elem_of_In, in_map, list_elem_of_In.
    by eapply list_elem_of_lookup_2.
Qed.

(** X1: the confidence of each reported record is the confidence of the
    last detection of the frame whose bbox equals the record's bbox, and is
    absent when no detection has that bbox. *)
Theorem confidence_is_last_equal_bbox g self detections i t :
  let fr := update_frame g self detections in
  f_tracks fr !! i = Some t →
  ∃ res, f_results fr !! i = Some res ∧
    res_id res = track_id t ∧ res_bbox res = bbox t ∧
    res_conf res
    = last (filter (fun det => det_bbox det = bbox t) detections) ≫= det_conf.
Proof.
  intros fr Ht. eexists. split; [by apply frame_result_lookup|]. done.
Qed.

(** X2: when the detections of a frame have pairwise distinct bboxes, a
    track whose bbox is that of a detection is reported with that
    detection's confidence, and a track whose bbox is no detection's bbox
    is reported without confidence. *)
Theorem confidence_without_collision g self detections i t :
  let fr := update_frame g self detections in
  NoDup (map det_bbox detections) →
  f_tracks fr !! i = Some t →
  ∃ res, f_results fr !! i = Some res ∧
    (∀ di det, detections !! di = Some det → bbox t = det_bbox det →
       res_conf res = det_conf det) ∧
    ((∀ det, det ∈ detections → det_bbox det ≠ bbox t) → res_conf res = None).
Proof.
  intros fr Hnd Ht. eexists. split; [by apply frame_result_lookup|].
  simpl. unfold last_conf_for. split.
  - intros di det Hdet ->. by rewrite (last_filter_unique _ _ _ Hnd Hdet).
  - intros Hnone.
    assert (filter (fun det => det_bbox det = bbox t) detections = []) as ->;
      [|done].
    destruct (filter _ detections) as [|d l] eqn:Hf; [done|]. exfalso.
    assert (d ∈ filter (fun det => det_bbox det = bbox t) detections) as Hin
      by (rewrite Hf; apply list_elem_of_here).
    apply list_elem_of_filter in Hin as [Heq Hin]. by apply (Hnone d).
Qed.

End Confidences.

(** ** Matches, misses and the budget *)

Section Matches.
Context {lib : NumLib}.

(** X3: when the track at index [ti] is matched and the filter accepts the
    measurement, the track leaves the association with the detection's
    bbox, no missed frame and one more hit, under its own id; it is then
    kept whenever [max_missed] is not negative. *)
Theorem successful_update_resets g self detections ti tr0 di det k :
  let fr := update_frame g self detections in
  tracks self !! ti = Some tr0 →
  as_choice (f_assoc fr) !! ti = Some (Some di) →
  detections !! di = Some det →
  lib_update (kf (Track_predict tr0).1)
    [(bbox_center (det_bbox det)).1; (bbox_center (det_bbox det)).2]
    = Returned k →
  ∃ tr', as_tracks (f_assoc fr) !! ti = Some tr' ∧
    visible tr' = (track_id tr0, det_bbox det, 0, hits tr0 + 1) ∧
    kf tr' = k ∧
    (0 ≤ max_missed self → tr' ∈ f_tracks fr).
Proof.
  intros fr Hti Hc Hdet Hlib.
  destruct (frame_track_fate g self detections ti tr0 Hti)
    as (c & tr' & lg & Hc' & Ht & _ & Hs).
  fold fr in Hc', Ht, Hs. rewrite Hc in Hc'. simplify_eq. simpl in Hs.
  destruct Hs as [(d & Hn & _) Hu].
  destruct (chosen_detection _ _ _ _ _ Hn) as (det' & Hdet' & Hnth).
  rewrite Hnth in Hu. rewrite Hdet in Hdet'. simplify_eq.
  rewrite (Track_update_returned _ _ _ Hlib) in Hu. simplify_eq.
  destruct (Track_predict_visible tr0) as (Hid & _ & _ & Hh).
  eexists. split; [done|]. split_and!.
  - unfold visible. simpl. by rewrite Hid, Hh.
  - done.
  - intros Hmax. unfold fr. rewrite frame_tracks. unfold prune.
    apply list_elem_of_filter. split; [done|].
    apply elem_of_app. left. by eapply list_elem_of_lookup_2.
Qed.

(** X4: a frame without detections creates no track, leaves [_TRACK_ID]
    as it is, matches no track, and reports every track it keeps without
    confidence. *)
Theorem empty_input_creates_nothing g self :
  let fr := update_frame g self [] in
  f_new fr = [] ∧ f_track_id fr = g ∧
  as_choice (f_assoc fr) = (fun _ => None) <$> tracks self ∧
  Forall (fun res => res_conf res = None) (f_results fr) ∧
  length (f_results fr)
  = length (filter (fun t => missed_frames t + 1 ≤ max_missed self) (tracks self)).
Proof.
  intros fr.
  destruct (empty_frame g self) as (Hv & Hg & Hr). fold fr in Hv, Hg, Hr.
  split_and!.
  - unfold fr. by rewrite update_frame_unfold.
  - done.
  - unfold fr. rewrite update_frame_unfold. simpl.
    destruct (associate_nil (max_distance self) (predict_all (tracks self)).1
                assoc_start 0) as (_ & _ & ->).
    simpl. rewrite predict_all_fst.
    change (map ?f ?l) with (f <$> l). by rewrite <- list_fmap_compose.
  - rewrite Hr. apply Forall_forall. intros res Hres.
    by apply list_elem_of_fmap in Hres as (v & -> & _).
  - rewrite Hr, !length_fmap.
    rewrite <- (length_fmap visible (f_tracks fr)), Hv, length_fmap.
    rewrite filter_fmap_comm, length_fmap. done.
Qed.

(** X5: with a negative [max_missed] no track outlives the frame that
    made it: the track list and the result list are empty after every
    call, whatever the detections. *)
Theorem negative_budget_reports_nothing g self detections :
  let fr := update_frame g self detections in
  max_missed self < 0 →
  Forall (fun t => 0 ≤ missed_frames t) (tracks self) →
  f_tracks fr = [] ∧ f_results fr = [] ∧
  f_track_id fr = g + Z.of_nat (length (f_new fr)).
Proof.
  intros fr Hneg Hpos.
  assert (f_tracks fr = []) as Hnone.
  { destruct (f_tracks fr) as [|t l] eqn:Hf; [done|]. exfalso.
    pose proof (missed_frames_nonneg g self detections Hpos) as Hinv.
    fold fr in Hinv. rewrite Hf in Hinv. apply Forall_cons in Hinv as [H0 _].
    assert (t ∈ f_tracks fr) as Hin by (rewrite Hf; apply list_elem_of_here).
    unfold fr in Hin. rewrite frame_tracks in Hin. unfold prune in Hin.
    apply list_elem_of_filter in Hin as [Hle _]. lia. }
  split_and!; [done| |apply frame_new_ids].
  destruct (results_follow_tracks g self detections) as (Hids & _).
  fold fr in Hids. rewrite Hnone in Hids. simpl in Hids.
  by destruct (f_results fr).
Qed.

(** X6: with a negative [max_distance] and a distance function that is
    never negative, no track is ever matched; every track counts a missed
    frame and every detection makes a new track. *)
Theorem negative_gate_matches_nothing g self detections :
  let fr := update_frame g self detections in
  (max_distance self < 0)%Q →
  (∀ x y, (0 <= hypot x y)%Q) →
  as_choice (f_assoc fr) = (fun _ => None) <$> tracks self ∧
  as_matched_det_idx (f_assoc fr) = ∅ ∧
  length (f_new fr) = length detections.
Proof.
  intros fr Hneg Hhyp.
  destruct (frame_assoc_spec g self detections) as (Hlen & _ & Hm & _).
  fold fr in Hlen, Hm.
  assert (∀ ti c, as_choice (f_assoc fr) !! ti = Some c → c = None) as Hnone.
  { intros ti [di|] Hc; [|done]. exfalso.
    destruct (choice_sound _ _ _ _ _ Hc) as (tr & d & _ & Hn & Hle).
    destruct Hn as (dc & _ & _ & -> & _).
    apply (Qlt_not_le _ _ Hneg). eapply Qle_trans; [apply Hhyp|exact Hle]. }
  assert (as_choice (f_assoc fr) = (fun _ => None) <$> tracks self) as Hcs.
  { apply list_eq. intros ti. rewrite list_lookup_fmap.
    destruct (as_choice (f_assoc fr) !! ti) as [c|] eqn:Hc.
    - rewrite (Hnone _ _ Hc).
      assert (is_Some (tracks self !! ti)) as [tr ->]; [|done].
      apply lookup_lt_is_Some. rewrite <- Hlen. by eapply lookup_lt_Some.
    - apply lookup_ge_None in Hc. rewrite Hlen in Hc.
      apply lookup_ge_None in Hc. by rewrite Hc. }
  assert (as_matched_det_idx (f_assoc fr) = ∅) as Hempty.
  { rewrite Hm. apply set_eq. intros di. rewrite claimed_before_elem.
    split; [|set_solver]. intros (tj & _ & Hc). by specialize (Hnone _ _ Hc). }
  split_and!; [done|done|].
  unfold fr. rewrite (proj1 (frame_new _ _ _)). fold fr. rewrite Hempty.
  generalize 0%nat g. clear.
  induction detections as [|det rest IH]; intros di g; [done|].
  simpl. rewrite bool_decide_eq_false_2 by set_solver.
  specialize (IH (S di) (g + 1)).
  destruct (spawn ∅ (S di) rest (g + 1)). simpl in *. by rewrite IH.
Qed.

End Matches.

(** ** What every call keeps *)

Section Kept.
Context {lib : NumLib}.

(** The tracks the association leaves, in terms of the ones it was given. *)
Lemma assoc_track_origin g self detections tr' :
  tr' ∈ as_tracks (f_assoc (update_frame g self detections)) →
  ∃ ti tr0 c lg, tracks self !! ti = Some tr0 ∧
    step_spec (max_distance self) (map det_center detections)
      (map det_bbox detections)
      (claimed_before (as_choice (f_assoc (update_frame g self detections))) ti)
      (Track_predict tr0).1 c tr' lg.
Proof.
  intros [ti Hti]%list_elem_of_lookup.
  destruct (frame_assoc_spec g self detections) as (_ & Hlen & _ & _).
  assert (is_Some (tracks self !! ti)) as [tr0 Htr0].
  { apply lookup_lt_is_Some. rewrite <- Hlen. by eapply lookup_lt_Some. }
  destruct (frame_track_fate g self detections ti tr0 Htr0)
    as (c & tr'' & lg & _ & Ht' & _ & Hs).
  rewrite Hti in Ht'. simplify_eq. by exists ti, tr0, c, lg.
Qed.

Lemma hits_positive g self detections :
  Forall (fun t => 1 ≤ hits t) (tracks self) →
  Forall (fun t => 1 ≤ hits t) (f_tracks (update_frame g self detections)).
Proof.
  intros Hpos. rewrite frame_tracks. unfold prune.
  apply Forall_forall. intros t [_ Ht]%list_elem_of_filter.
  apply elem_of_app in Ht as [Ht|Ht].
  - destruct (assoc_track_origin _ _ _ _ Ht) as (ti & tr0 & c & lg & Htr0 & Hs).
    rewrite Forall_forall in Hpos.
    assert (1 ≤ hits tr0) as H1 by (eapply Hpos, list_elem_of_lookup_2; done).
    destruct (Track_predict_visible tr0) as (_ & _ & _ & Hh).
    destruct c as [di|]; simpl in Hs.
    + destruct Hs as [_ Hu]. unfold Track_update in Hu.
      destruct (lib_update _ _); simplify_eq; simpl; lia.
    + destruct Hs as (_ & -> & _). simpl. lia.
  - rewrite (proj1 (frame_new _ _ _)) in Ht.
    destruct (spawn_spec (as_matched_det_idx (f_assoc (update_frame g self detections)))
                detections 0 g) as (_ & _ & _ & Hnew).
    by destruct (Hnew t Ht) as (k & det & tid & _ & _ & ->).
Qed.

Lemma StronglySorted_sublist {A} (R : relation A) (l k : list A) :
  l `sublist_of` k → StronglySorted R k → StronglySorted R l.
Proof.
  induction 1 as [|x l k Hsub IH|x l k Hsub IH]; intros Hk.
  - constructor.
  - apply StronglySorted_cons in Hk as [Hx Hk]. constructor; [by apply IH|].
    apply Forall_forall. intros y Hy. rewrite Forall_forall in Hx.
    apply Hx. by eapply sublist_subseteq.
  - apply StronglySorted_cons in Hk as [_ Hk]. by apply IH.
Qed.

(** The ids of the track list stay increasing and below the counter. *)
Lemma ids_sorted_frame g self detections :
  1 ≤ g →
  strictly_increasing (map track_id (tracks self)) →
  Forall (fun tid => 1 ≤ tid < g) (map track_id (tracks self)) →
  strictly_increasing (map track_id (f_tracks (update_frame g self detections))) ∧
  Forall (fun tid => 1 ≤ tid < f_track_id (update_frame g self detections))
    (map track_id (f_tracks (update_frame g self detections))) ∧
  g ≤ f_track_id (update_frame g self detections).
Proof.
  intros Hg Hsorted Hbound.
  destruct (frame_new_ids g self detections) as [Hids Hnext].
  rewrite Hnext.
  pose proof (frame_track_ids g self detections) as Hsub.
  rewrite Hids in Hsub.
  assert (strictly_increasing
            (map track_id (tracks self)
             ++ seqZ g (Z.of_nat (length (f_new (update_frame g self detections))))))
    as Hall.
  { apply StronglySorted_app_2; [|done|apply seqZ_increasing].
    intros x1 x2 Hx1 Hx2%elem_of_seqZ.
    rewrite Forall_forall in Hbound. specialize (Hbound x1 Hx1). lia. }
  split_and!.
  - by eapply StronglySorted_sublist.
  - apply Forall_forall. intros tid Htid.
    apply (sublist_subseteq _ _ Hsub) in Htid.
    apply elem_of_app in Htid as [Htid|Htid%elem_of_seqZ].
    + rewrite Forall_forall in Hbound. specialize (Hbound tid Htid). lia.
    + lia.
  - lia.
Qed.

Lemma alone_invariant_frame g self detections :
  alone_invariant g self →
  alone_invariant (f_track_id (update_frame g self detections))
    {| tracks := f_tracks (update_frame g self detections);
       max_distance := max_distance self; max_missed := max_missed self |}.
Proof.
  intros (Hg & Hall & Hsorted & Hbound).
  destruct (ids_sorted_frame g self detections Hg Hsorted Hbound)
    as (Hsorted' & Hbound' & Hle).
  unfold alone_invariant. simpl. split_and!; [lia| |done|done].
  assert (Forall (fun t => 0 ≤ missed_frames t) (tracks self)) as H0
    by (eapply Forall_impl; [exact Hall|]; simpl; lia).
  assert (Forall (fun t => 1 ≤ hits t) (tracks self)) as H1
    by (eapply Forall_impl; [exact Hall|]; simpl; lia).
  pose proof (missed_frames_nonneg g self detections H0) as H0'.
  pose proof (hits_positive g self detections H1) as H1'.
  apply Forall_forall. intros t Ht.
  rewrite Forall_forall in H0'. rewrite Forall_forall in H1'.
  specialize (H0' t Ht). specialize (H1' t Ht).
  rewrite frame_tracks in Ht. unfold prune in Ht.
  apply list_elem_of_filter in Ht as [Hle' _]. lia.
Qed.

Lemma alone_invariant_run frames : ∀ g self,
  alone_invariant g self →
  alone_invariant (run_frames g self frames).1.2 (run_frames g self frames).1.1 ∧
  max_missed (run_frames g self frames).1.1 = max_missed self ∧
  ∀ k rs, (run_frames g self frames).2 !! k = Some rs →
    strictly_increasing (map res_id rs) ∧ Forall (fun tid => 1 ≤ tid) (map res_id rs).
Proof.
  induction frames as [|detections rest IH]; intros g self Hinv.
  - simpl. split_and!; [done|done|]. intros k rs Hk. by destruct k.
  - rewrite run_frames_cons. cbv zeta.
    pose proof (alone_invariant_frame g self detections Hinv) as Hinv'.
    destruct (IH _ _ Hinv') as (Hfinal & Hmax & Hres).
    cbn [fst snd] in *. split_and!; [done|done|].
    intros [|k] rs Hk; simpl in Hk; [|by eapply Hres].
    simplify_eq.
    destruct (results_follow_tracks g self detections) as (-> & _).
    destruct Hinv' as (_ & _ & Hsorted & Hbound). simpl in Hsorted, Hbound.
    split; [done|]. eapply Forall_impl; [exact Hbound|]. simpl. lia.
Qed.

Lemma alone_invariant_init md mm :
  alone_invariant (PeopleTracker_init md mm).2 (PeopleTracker_init md mm).1.
Proof.
  unfold alone_invariant. simpl. split_and!; [lia|constructor..].
Qed.

(** X7: whatever frames a tracker has been given since its construction,
    every track it holds has a count of missed frames between 0 and
    [max_missed] and at least one hit. *)
Theorem tracks_stay_within_budget md mm frames :
  let r := run_frames (PeopleTracker_init md mm).2 (PeopleTracker_init md mm).1
             frames in
  Forall (fun t => 0 ≤ missed_frames t ≤ mm ∧ 1 ≤ hits t) (tracks r.1.1).
Proof.
  intros r.
  destruct (alone_invariant_run frames _ _ (alone_invariant_init md mm))
    as ((_ & Hall & _) & Hmax & _).
  fold r in Hall, Hmax. simpl in Hmax. by rewrite Hmax in Hall.
Qed.

(** X8: for a tracker used alone since its construction, the ids of every
    returned list are positive and strictly increasing along the list, so
    no two records of a frame share an id. *)
Theorem result_ids_increase_along_list md mm frames k rs :
  (run_frames (PeopleTracker_init md mm).2 (PeopleTracker_init md mm).1 frames).2
    !! k = Some rs →
  strictly_increasing (map res_id rs) ∧
  Forall (fun tid => 1 ≤ tid) (map res_id rs) ∧
  NoDup (map res_id rs).
Proof.
  intros Hk.
  destruct (alone_invariant_run frames _ _ (alone_invariant_init md mm))
    as (_ & _ & Hres).
  destruct (Hres k rs Hk) as [Hsorted Hpos]. split_and!; [done|done|].
  clear -Hsorted. unfold strictly_increasing in Hsorted.
  induction Hsorted as [|x l _ IH Hx]; constructor; [|done].
  intros Hin. rewrite Forall_forall in Hx. specialize (Hx x Hin). lia.
Qed.

End Kept.

(** ** Counting detections *)

Section Counting.
Context {lib : NumLib}.

Lemma spawn_length md : ∀ (detections : list Detection) di g,
  length (spawn md di detections g).1
  = length (filter (fun k => k ∉ md) (seq di (length detections))).
Proof.
  induction detections as [|det rest IH]; intros di g; [done|].
  simpl. rewrite filter_cons. case_bool_decide as Hcl.
  - rewrite decide_False by (intros Hn; by apply Hn). apply IH.
  - rewrite decide_True by done. specialize (IH (S di) (g + 1)).
    destruct (spawn md (S di) rest (g + 1)). simpl in *. by rewrite IH.
Qed.

Lemma filter_split_length (md : gset nat) (l : list nat) :
  (length (filter (fun k => k ∉ md) l) + length (filter (fun k => k ∈ md) l))%nat
  = length l.
Proof.
  induction l as [|x l IH]; [done|]. rewrite !filter_cons.
  destruct (decide (x ∈ md)).
  - rewrite decide_False by (intros Hn; by apply Hn). simpl. lia.
  - rewrite decide_True by done. simpl. lia.
Qed.

Lemma claimed_below_length (md : gset nat) (n : nat) :
  (∀ k, k ∈ md → (k < n)%nat) →
  length (filter (fun k => k ∈ md) (seq 0 n)) = size md.
Proof.
  intros Hlt.
  assert (NoDup (filter (fun k => k ∈ md) (seq 0 n))) as Hnd
    by apply NoDup_filter, NoDup_seq.
  rewrite <- (size_list_to_set (C := gset nat) _ Hnd). f_equal.
  apply set_eq. intros k.
  rewrite elem_of_list_to_set, list_elem_of_filter, elem_of_seq.
  split; [by intros [? _]|]. intros Hk. split; [done|].
  specialize (Hlt k Hk). lia.
Qed.

Lemma choice_NoDup (cs : list (option nat)) :
  (∀ k di, cs !! k = Some (Some di) → di ∉ claimed_before cs k) →
  NoDup (omap id cs).
Proof.
  induction cs as [|c cs IH] using rev_ind; intros Hfree; [constructor|].
  rewrite omap_app. apply NoDup_app. split_and!.
  - apply IH. intros k di Hk Hin. apply (Hfree k di).
    + by apply lookup_app_l_Some.
    + unfold claimed_before in *.
      rewrite take_app_le; [done|]. apply lookup_lt_Some in Hk. lia.
  - intros di Hin Hin'. destruct c as [di'|]; simpl in Hin'; [|by inv Hin'].
    apply list_elem_of_singleton in Hin' as ->.
    apply (Hfree (length cs) di').
    + rewrite lookup_app_r by lia. by rewrite Nat.sub_diag.
    + unfold claimed_before. rewrite take_app_length.
      by apply elem_of_list_to_set.
  - destruct c; simpl; [apply NoDup_singleton|constructor].
Qed.

(** X9: every detection of a frame is used exactly once: the number of
    new tracks plus the number of matched tracks is the number of
    detections, and [_TRACK_ID] advances by the number of new tracks. *)
Theorem detections_used_once g self detections :
  let fr := update_frame g self detections in
  (length (f_new fr) + matched_count (as_choice (f_assoc fr)))%nat
    = length detections ∧
  f_track_id fr = g + Z.of_nat (length (f_new fr)) ∧
  NoDup (omap id (as_choice (f_assoc fr))).
Proof.
  intros fr.
  destruct (frame_assoc_spec g self detections) as (_ & _ & Hm & _).
  fold fr in Hm.
  assert (NoDup (omap id (as_choice (f_assoc fr)))) as Hnd.
  { apply choice_NoDup. intros k di Hk.
    by destruct (choice_sound _ _ _ _ _ Hk) as (? & ? & _ & (? & _ & ? & _) & _). }
  split_and!; [|apply frame_new_ids|done].
  unfold fr at 1. rewrite (proj1 (frame_new _ _ _)). fold fr.
  rewrite spawn_length.
  transitivity (length (seq 0 (length detections))); [|apply length_seq].
  rewrite <- (filter_split_length (as_matched_det_idx (f_assoc fr))
                (seq 0 (length detections))). f_equal.
  rewrite claimed_below_length.
  - rewrite Hm. unfold claimed_before, matched_count.
    rewrite firstn_all. by rewrite size_list_to_set.
  - intros di Hdi. rewrite Hm in Hdi.
    apply claimed_before_elem in Hdi as (tj & _ & Hc).
    destruct (choice_sound _ _ _ _ _ Hc) as (? & ? & _ & (dc & Hdc & _) & _).
    apply lookup_lt_Some in Hdc. by rewrite length_map in Hdc.
Qed.




End Counting.

(** ** What the association reads *)

Section Reads.
Context {lib : NumLib}.



End Reads.

(** ** Drawing *)

Section Drawn.
Variable format_2f : Q → string.

Lemma odd_factor_mod (a b c c' : Z) :
  (c * c') mod 256 = 1 →
  (a * c) mod 256 = (b * c) mod 256 → a mod 256 = b mod 256.
Proof.
  intros Hinv Heq.
  assert (∀ x, x mod 256 = ((x * c) mod 256 * c') mod 256) as Hback.
  { intros x. rewrite Z.mul_mod_idemp_l by lia.
    rewrite <- Z.mul_assoc, <- Z.mul_mod_idemp_r, Hinv by lia.
    by rewrite Z.mul_1_r. }
  by rewrite (Hback a), (Hback b), Heq.
Qed.

(** X12: two ids get the same colour exactly when they are equal modulo
    256. *)
Theorem color_shared_iff (a b : Z) :
  track_color a = track_color b ↔ a mod 256 = b mod 256.
Proof.
  unfold track_color. split.
  - intros Heq. injection Heq as Heq _ _.
    by apply (odd_factor_mod a b 37 173).
  - intros Heq.
    assert (∀ c, (a * c) mod 256 = (b * c) mod 256) as Hmul.
    { intros c. rewrite <- (Z.mul_mod_idemp_l a), <- (Z.mul_mod_idemp_l b) by lia.
      by rewrite Heq. }
    by rewrite !Hmul.
Qed.

Lemma fits_int_range (v : Z) : fits_int v = true ↔ in_int_range v.
Proof. unfold fits_int, in_int_range. rewrite andb_true_iff. lia. Qed.

(** A dictionary that can be drawn gets its two calls; the anchor of the
    text fits whenever the corner of the rectangle does. *)
Lemma draw_track_drawable (tr : TrackDict) x1 y1 x2 y2 :
  td_bbox tr = Some (x1, y1, x2, y2) → drawable_bbox (x1, y1, x2, y2) →
  draw_track format_2f tr
  = ([Rectangle (x1, y1) (x2, y2) (track_color (default 0 (td_id tr))) 2;
      PutText (track_label format_2f (default 0 (td_id tr))
                 (default "obj"%string (td_class tr)) (td_conf tr))
        (x1, Z.max (y1 - 10) 10) (1 # 2) (track_color (default 0 (td_id tr))) 2],
     false).
Proof.
  intros Hb (Hx1 & Hy1 & Hx2 & Hy2). simpl in Hx1, Hy1, Hx2, Hy2.
  unfold draw_track. rewrite Hb. unfold point_fits. cbn [fst snd].
  assert (in_int_range (Z.max (y1 - 10) 10)) as Hy
    by (unfold in_int_range in *; lia).
  apply fits_int_range in Hx1, Hy1, Hx2, Hy2, Hy.
  by rewrite Hx1, Hy1, Hx2, Hy2, Hy.
Qed.

(** A dictionary that cannot be drawn makes the body raise before any
    call. *)
Lemma draw_track_undrawable (tr : TrackDict) :
  ¬ drawable tr → draw_track format_2f tr = ([], true).
Proof.
  intros Hno. unfold draw_track.
  destruct (td_bbox tr) as [[[[x1 y1] x2] y2]|] eqn:Hb; [|done].
  unfold point_fits. cbn [fst snd].
  destruct (fits_int x1 && fits_int y1 && (fits_int x2 && fits_int y2)) eqn:Hfit;
    [|done].
  exfalso. apply Hno. exists (x1, y1, x2, y2). split; [done|].
  apply andb_true_iff in Hfit as [[? ?]%andb_true_iff [? ?]%andb_true_iff].
  by split_and!; apply fits_int_range.
Qed.







(** X14: the function stops at the first dictionary that cannot be drawn,
    because it has no ["bbox"] or because a coordinate of its box does not
    fit in a C [int]: the dictionaries before it have their two calls each,
    this one and the ones after it have none, and the function raises. *)
Theorem undrawable_track_stops_drawing (before after : list TrackDict)
    (tr : TrackDict) :
  Forall drawable before →
  ¬ drawable tr →
  (draw_tracked_boxes format_2f before).2 = false ∧
  length (draw_tracked_boxes format_2f before).1 = (2 * length before)%nat ∧
  draw_tracked_boxes format_2f (before ++ tr :: after)
  = ((draw_tracked_boxes format_2f before).1, true).
Proof.
  intros Hbefore Htr.
  induction Hbefore as [|t l ([[[x1 y1] x2] y2] & Hb & Hd) _ (IH1 & IHlen & IH2)].
  - simpl. by rewrite (draw_track_undrawable _ Htr).
  - simpl. rewrite (draw_track_drawable _ _ _ _ _ Hb Hd), IH2.
    destruct (draw_tracked_boxes format_2f l) as [more raised].
    simpl in *. subst. split_and!; [done| |done]. rewrite IHlen. lia.
Qed.

End Drawn.

(** ** The detector *)

Section Detector.

Lemma parse_box_other (box : RawBox) :
  other_class box → parse_box box = Skipped.
Proof.
  intros (c & Hc & Hne). unfold parse_box. rewrite Hc.
  by rewrite (proj2 (Z.eqb_neq _ _) Hne).
Qed.

Lemma read_conf_Some (box : RawBox) conf :
  read_conf box = Some conf ↔
  box_conf box = Attr conf ∨
  (box_conf box = Missing ∧ box_confidence box = Attr conf).
Proof.
  unfold read_conf.
  destruct (box_conf box) as [| |cf]; [|naive_solver|naive_solver].
  destruct (box_confidence box); naive_solver.
Qed.


Lemma parse_box_inv (box : RawBox) :
  match parse_box box with
  | Skipped => other_class box
  | Parsed det =>
      ∃ a b c d conf, complete_person box [a; b; c; d] conf ∧
        det = detection_of_box (py_int a) (py_int b) (py_int c) (py_int d) conf
  | ParseError => unreadable box
  end.
Proof.
  unfold parse_box, unreadable, other_class, complete_person, is_person.
  destruct (box_cls box) as [| |c0] eqn:Hc.
  1,2: split; [by intros (? & ? & _)|by intros (? & ? & (? & ? & _) & _)].
  destruct (py_int c0 =? 0) eqn:H0; simpl.
  2:{ apply Z.eqb_neq in H0. eauto. }
  apply Z.eqb_eq in H0.
  assert (¬ ∃ c, Attr c0 = Attr c ∧ py_int c ≠ 0) as Hperson
    by (intros (c & ? & ?); by simplify_eq).
  destruct (box_xyxy box) as [| |[|row rows]] eqn:Hx.
  1-3: split; [done|]; by intros (? & ? & _ & _ & (? & ?) & _).
  destruct (map py_int row) as [|x1 [|y1 [|x2 [|y2 [|z l]]]]] eqn:Hrow.
  1-4,6: split; [done|];
    intros (row' & ? & _ & Hlen & (? & ?) & _); simplify_eq;
    apply (f_equal length) in Hrow; rewrite length_map in Hrow;
    simpl in Hrow; lia.
  destruct row as [|a [|b [|c [|d [|e row]]]]]; try done.
  simpl in Hrow. simplify_eq.
  destruct (read_conf box) as [cf|] eqn:Hcf.
  - apply read_conf_Some in Hcf.
    exists a, b, c, d, cf. split; [|done]. split_and!; eauto.
  - split; [done|].
    intros (? & cf & _ & _ & _ & Hconf). apply read_conf_Some in Hconf.
    congruence.
Qed.

Lemma parse_box_unreadable (box : RawBox) :
  unreadable box → parse_box box = ParseError.
Proof.
  intros [Hno Hnc]. pose proof (parse_box_inv box) as Hinv.
  destruct (parse_box box) as [|det|]; [done| |done].
  destruct Hinv as (a & b & c & d & conf & Hcomplete & _).
  exfalso. apply Hnc. eauto.
Qed.

Lemma detect_boxes_app (l1 l2 : list RawBox) :
  detect_boxes (l1 ++ l2)
  = ((detect_boxes l1).1 ++ (detect_boxes l2).1,
     (detect_boxes l1).2 ++ (detect_boxes l2).2).
Proof.
  induction l1 as [|box l1 IH]; [simpl; by destruct (detect_boxes l2)|].
  simpl. rewrite IH. destruct (detect_boxes l1) as [d1 g1].
  by destruct (parse_box box).
Qed.

(** X15: boxes of another class are dropped without a log entry, whatever
    their other attributes hold or miss. *)
Theorem other_classes_dropped_silently (boxes : list RawBox) :
  Forall other_class boxes → detect_boxes boxes = ([], []).
Proof.
  induction 1 as [|box l Hbox _ IH]; [done|].
  simpl. by rewrite IH, parse_box_other.
Qed.


(** X17: an unreadable box costs one log entry and nothing else: the
    boxes before and after it are processed as if it were not there. *)
Theorem unreadable_box_skipped_alone (before after : list RawBox) (bad : RawBox) :
  unreadable bad →
  detect_boxes (before ++ bad :: after)
  = ((detect_boxes before).1 ++ (detect_boxes after).1,
     (detect_boxes before).2 ++ BoxError :: (detect_boxes after).2).
Proof.
  intros Hbad. rewrite detect_boxes_app. simpl.
  rewrite (parse_box_unreadable _ Hbad). by destruct (detect_boxes after).
Qed.

(** X18: every detection the detector returns has class ["person"], a
    confidence, and an integer centre; on each axis on which the box's
    corners are in order, the centre lies between them. *)
Theorem detections_are_centred_persons (boxes : list RawBox) det :
  det ∈ (detect_boxes boxes).1 →
  det_class det = "person"%string ∧ is_Some (det_conf det) ∧
  ∃ x1 y1 x2 y2 cx cy,
    det_bbox det = (x1, y1, x2, y2) ∧
    det_center det = (inject_Z cx, inject_Z cy) ∧
    (x1 ≤ x2 → x1 ≤ cx ≤ x2) ∧ (y1 ≤ y2 → y1 ≤ cy ≤ y2).
Proof.
  induction boxes as [|box l IH]; [by intros ?%elem_of_nil|].
  simpl. destruct (detect_boxes l) as [dets lg]. simpl in IH.
  pose proof (parse_box_inv box) as Hinv.
  destruct (parse_box box) as [|det'|]; simpl; [done| |done].
  intros [->|Hin]%elem_of_cons; [|by apply IH].
  destruct Hinv as (a & b & c & d & conf & _ & ->). simpl.
  split_and!; [done|by eexists|].
  assert (∀ u v, u ≤ v → u ≤ (u + v) / 2 ≤ v) as Hmid.
  { intros u v Huv. split.
    - apply Z.div_le_lower_bound; lia.
    - apply Z.div_le_upper_bound; lia. }
  eexists _, _, _, _, _, _. split_and!; [done|done|apply Hmid|apply Hmid].
Qed.



End Detector.

(** ** The loop over the frames *)

Section Loop.
Context {lib : NumLib}.
Variable format_2f : Q → string.

Lemma main_pass_unfold frame_idx g tracker out :
  let fr := update_frame g tracker (detections_of out) in
  let drawn := draw_tracked_boxes format_2f (dict_of_result <$> f_results fr) in
  p_tracker (main_pass format_2f frame_idx g tracker out)
    = {| tracks := f_tracks fr; max_distance := max_distance tracker;
         max_missed := max_missed tracker |} ∧
  p_track_id (main_pass format_2f frame_idx g tracker out) = f_track_id fr ∧
  p_tracks (main_pass format_2f frame_idx g tracker out) = f_results fr ∧
  p_drawn (main_pass format_2f frame_idx g tracker out) = drawn.1 ∧
  p_log (main_pass format_2f frame_idx g tracker out)
    = match detect out with
      | Some (_, dlg) => InDetector <$> dlg
      | None => [DetectionError frame_idx]
      end ++ (InTracker <$> f_log fr)
      ++ (if drawn.2 then [DrawError frame_idx] else []).
Proof.
  unfold main_pass, detections_of.
  destruct (detect out) as [[dets dlg]|]; simpl;
    by destruct (draw_tracked_boxes format_2f _).
Qed.

Lemma main_loop_lookup : ∀ outs frame_idx g tracker k p,
  main_loop format_2f frame_idx g tracker outs !! k = Some p →
  (run_frames g tracker (detections_of <$> take (S k) outs)).1.1 = p_tracker p ∧
  (run_frames g tracker (detections_of <$> take (S k) outs)).1.2 = p_track_id p ∧
  (run_frames g tracker (detections_of <$> take (S k) outs)).2 !! k
    = Some (p_tracks p) ∧
  p_drawn p = (draw_tracked_boxes format_2f (dict_of_result <$> p_tracks p)).1 ∧
  (DrawError (frame_idx + Z.of_nat k + 1) ∈ p_log p ↔
   (draw_tracked_boxes format_2f (dict_of_result <$> p_tracks p)).2 = true) ∧
  (∀ out, outs !! k = Some out → detect out = None →
     DetectionError (frame_idx + Z.of_nat k + 1) ∈ p_log p).
Proof.
  induction outs as [|out rest IH]; intros frame_idx g tracker k p Hk; [done|].
  simpl in Hk.
  destruct (main_pass_unfold (frame_idx + 1) g tracker out)
    as (Ht & Hg & Hr & Hd & Hl).
  destruct k as [|k]; simpl in Hk.
  - simplify_eq. change (take 1 (out :: rest)) with [out].
    change (detections_of <$> [out]) with [detections_of out].
    rewrite run_frames_cons. simpl. rewrite Ht, Hg, Hr, Hd.
    replace (frame_idx + Z.of_nat 0 + 1) with (frame_idx + 1) by lia.
    split_and!; try done.
    + rewrite Hl, !elem_of_app.
      destruct (draw_tracked_boxes format_2f _) as [cmds [|]]; simpl.
      * split; [done|]. intros _. right. right. apply list_elem_of_here.
      * split; [|done]. intros [Hin|[Hin|Hin]].
        -- destruct (detect out) as [[? dlg]|].
           ++ by apply list_elem_of_fmap in Hin as (? & ? & _).
           ++ by apply list_elem_of_singleton in Hin.
        -- by apply list_elem_of_fmap in Hin as (? & ? & _).
        -- by apply elem_of_nil in Hin.
    + intros out' Hout Hnone. simplify_eq. rewrite Hl, Hnone.
      apply elem_of_app. left. apply list_elem_of_here.
  - rewrite Hg, Ht in Hk.
    destruct (IH _ _ _ _ _ Hk) as (Ht' & Hg' & Hr' & Hd' & Hne & Hde).
    change (take (S (S k)) (out :: rest)) with (out :: take (S k) rest).
    rewrite fmap_cons, run_frames_cons. cbv zeta. cbn [fst snd].
    replace (frame_idx + Z.of_nat (S k) + 1)
      with (frame_idx + 1 + Z.of_nat k + 1) by lia.
    split_and!; try done.
Qed.

Lemma main_loop_length : ∀ outs frame_idx g tracker,
  length (main_loop format_2f frame_idx g tracker outs) = length outs.
Proof.
  induction outs as [|out rest IH]; intros; [done|]. simpl. by rewrite IH.
Qed.


(** X21: when the detector raises on [max_missed + 1] frames in a row,
    each of these frames logs the failure and counts as a missed frame for
    every track; on the last of them the tracker holds no track, nothing
    is returned and nothing is drawn, and [_TRACK_ID] is where it was. *)
Theorem detector_outage_clears_tracks frame_idx g tracker :
  let n := Z.to_nat (max_missed tracker + 1) in
  let passes := main_loop format_2f frame_idx g tracker (replicate n ModelRaised) in
  Forall (fun t => 0 ≤ missed_frames t) (tracks tracker) →
  0 ≤ max_missed tracker →
  (∀ k p, passes !! k = Some p →
     DetectionError (frame_idx + Z.of_nat k + 1) ∈ p_log p ∧
     p_tracks p = stale_report (max_missed tracker) (tracks tracker) k ∧
     p_track_id p = g) ∧
  ∃ p, last passes = Some p ∧
    tracks (p_tracker p) = [] ∧ p_tracks p = [] ∧ p_drawn p = [].
Proof.
  intros n passes Hpos Hmax.
  assert (∀ k p, passes !! k = Some p →
     DetectionError (frame_idx + Z.of_nat k + 1) ∈ p_log p ∧
     p_tracks p = stale_report (max_missed tracker) (tracks tracker) k ∧
     p_track_id p = g ∧
     visible <$> tracks (p_tracker p)
       = aged (Z.of_nat (S k))
           <$> filter (fun v : Z * BBox * Z * Z =>
                         v.1.2 + Z.of_nat (S k) ≤ max_missed tracker)
                 (visible <$> tracks tracker) ∧
     p_drawn p = (draw_tracked_boxes format_2f (dict_of_result <$> p_tracks p)).1)
    as Hpass.
  { intros k p Hk.
    assert (k < n)%nat as Hlt.
    { apply lookup_lt_Some in Hk. unfold passes in Hk.
      by rewrite main_loop_length, length_replicate in Hk. }
    destruct (main_loop_lookup _ _ _ _ _ _ Hk) as (Ht & Hg & Hr & Hd & _ & Hde).
    rewrite take_replicate, Nat.min_l, fmap_replicate in Ht, Hg, Hr by lia.
    change (detections_of ModelRaised) with (@nil Detection) in Ht, Hg, Hr.
    destruct (empty_run k g tracker) as (Hg' & _ & Hv & Hrs).
    rewrite Hrs, list_lookup_fmap, lookup_seq_lt in Hr by lia.
    simpl in Hr. rewrite <- stale_report_of_tracks in Hr.
    split_and!.
    - apply (Hde ModelRaised); [|done]. by apply lookup_replicate_2.
    - congruence.
    - congruence.
    - by rewrite <- Ht.
    - done. }
  split.
  - intros k p Hk. destruct (Hpass k p Hk) as (? & ? & ? & _). done.
  - assert (n = S (Z.to_nat (max_missed tracker))) as Hn by (unfold n; lia).
    assert (is_Some (passes !! Z.to_nat (max_missed tracker))) as [p Hp].
    { apply lookup_lt_is_Some. unfold passes.
      rewrite main_loop_length, length_replicate. lia. }
    exists p. split.
    { rewrite last_lookup. unfold passes at 1.
      rewrite main_loop_length, length_replicate, Hn. done. }
    destruct (Hpass _ _ Hp) as (_ & Hr & _ & Hv & Hd).
    assert (∀ A (f : Track → A),
              f <$> filter (fun t => missed_frames t
                              + Z.of_nat (S (Z.to_nat (max_missed tracker)))
                              ≤ max_missed tracker) (tracks tracker) = [])
      as Hgone.
    { intros A f.
      destruct (filter _ (tracks tracker)) as [|t l] eqn:Hf; [done|]. exfalso.
      assert (t ∈ filter (fun t => missed_frames t
                            + Z.of_nat (S (Z.to_nat (max_missed tracker)))
                            ≤ max_missed tracker) (tracks tracker)) as Hin
        by (rewrite Hf; apply list_elem_of_here).
      apply list_elem_of_filter in Hin as [Hle Hin].
      rewrite Forall_forall in Hpos. specialize (Hpos t Hin). lia. }
    assert (p_tracks p = []) as Hnone by (rewrite Hr; apply Hgone).
    split_and!.
    + rewrite filter_fmap_comm, <- list_fmap_compose in Hv.
      rewrite Hgone in Hv. by apply fmap_nil_inv in Hv.
    + done.
    + by rewrite Hd, Hnone.
Qed.

End Loop.

(** ** The further properties on sample inputs *)

Lemma confidence_is_last_equal_bbox_witness :
  let fr := update_frame 3 Sample.tracker2 Sample.second_box_only in
  ∃ t, f_tracks fr !! 1%nat = Some t ∧
    ∃ res, f_results fr !! 1%nat = Some res ∧
      res_id res = track_id t ∧ res_bbox res = bbox t ∧
      res_conf res
      = last (filter (fun det => det_bbox det = bbox t) Sample.second_box_only)
          ≫= det_conf.
Proof.
  intros fr. eexists. split; [vm_compute; reflexivity|].
  apply (confidence_is_last_equal_bbox 3 Sample.tracker2 Sample.second_box_only 1).
  vm_compute. reflexivity.
Defined.

Lemma confidence_without_collision_witness :
  let fr := update_frame 2 Sample.tracker1 Sample.far_then_near in
  NoDup (map det_bbox Sample.far_then_near) ∧
  ∃ t, f_tracks fr !! 0%nat = Some t ∧
    ∃ res, f_results fr !! 0%nat = Some res ∧
      (∀ di det, Sample.far_then_near !! di = Some det → bbox t = det_bbox det →
         res_conf res = det_conf det) ∧
      ((∀ det, det ∈ Sample.far_then_near → det_bbox det ≠ bbox t) →
       res_conf res = None).
Proof.
  intros fr.
  assert (NoDup (map det_bbox Sample.far_then_near)) as Hnd.
  { simpl. apply NoDup_cons. split; [|apply NoDup_singleton].
    intros Hin%list_elem_of_singleton. discriminate. }
  split; [exact Hnd|]. eexists. split; [vm_compute; reflexivity|].
  apply (confidence_without_collision 2 Sample.tracker1 Sample.far_then_near 0 _ Hnd).
  vm_compute. reflexivity.
Defined.

Lemma successful_update_resets_witness :
  let fr := update_frame 2 Sample.tracker1 Sample.far_then_near in
  ∃ tr', as_tracks (f_assoc fr) !! 0%nat = Some tr' ∧
    visible tr' = (1, (2, 0, 12, 10), 0, 2) ∧
    (0 ≤ 10 → tr' ∈ f_tracks fr).
Proof.
  intros fr.
  destruct (lib_update (kf (Track_predict Sample.track1).1)
              [(bbox_center (2, 0, 12, 10)).1; (bbox_center (2, 0, 12, 10)).2])
    as [k|k] eqn:Hlib; [|vm_compute in Hlib; discriminate].
  destruct (successful_update_resets 2 Sample.tracker1 Sample.far_then_near 0
              Sample.track1 1 (detection_of_box 2 0 12 10 (8 # 10)) k)
    as (tr' & Ht & Hv & _ & Hin);
    [vm_compute; reflexivity|vm_compute; reflexivity|reflexivity|exact Hlib|].
  exists tr'. by split_and!.
Defined.

Lemma negative_budget_reports_nothing_witness :
  let fr := update_frame 2 SampleIO.no_budget Sample.far_then_near in
  f_tracks fr = [] ∧ f_results fr = [] ∧
  f_track_id fr = 2 + Z.of_nat (length (f_new fr)).
Proof.
  intros fr.
  apply (negative_budget_reports_nothing 2 SampleIO.no_budget Sample.far_then_near).
  - simpl. lia.
  - apply Forall_singleton. simpl. lia.
Defined.

Lemma exact_hypot_nonneg (x y : Q) : (0 <= Exact.hypot x y)%Q.
Proof.
  unfold Exact.hypot, Exact.sqrt_binary64.
  destruct (Qnum (x * x + y * y) <=? 0); [done|]. cbv zeta.
  generalize (if Z.sqrt (Qfloor (Exact.scale4 (x * x + y * y)
                        ((105 - (Z.log2 (Qnum (x * x + y * y))
                                 - Z.log2 (Z.pos (Qden (x * x + y * y))))) / 2)))
                  <? 2 ^ 52
              then (105 - (Z.log2 (Qnum (x * x + y * y))
                           - Z.log2 (Z.pos (Qden (x * x + y * y))))) / 2 + 1
              else (105 - (Z.log2 (Qnum (x * x + y * y))
                           - Z.log2 (Z.pos (Qden (x * x + y * y))))) / 2).
  intros s.
  pose proof (Z.sqrt_nonneg (Qfloor (Exact.scale4 (x * x + y * y) s))) as Hm.
  generalize dependent (Z.sqrt (Qfloor (Exact.scale4 (x * x + y * y) s))).
  intros m Hm.
  generalize (Exact.scale4 (x * x + y * y) s * 4
              ?= inject_Z ((2 * m + 1) * (2 * m + 1)))%Q.
  intros c.
  assert (0 ≤ (if match c with Gt => true | Eq => Z.odd m | Lt => false end
               then m + 1 else m)) as Hm'
    by (destruct c; [destruct (Z.odd m)| |]; lia).
  generalize dependent (if match c with Gt => true | Eq => Z.odd m | Lt => false end
                        then m + 1 else m).
  intros m' Hm'.
  rewrite Qred_correct. unfold Qle.
  destruct (0 <=? s); simpl; [lia|].
  pose proof (Z.pow_nonneg 2 (- s)). nia.
Qed.

Lemma negative_gate_matches_nothing_witness :
  let fr := update_frame 2 SampleIO.no_gate Sample.far_then_near in
  as_choice (f_assoc fr) = [None] ∧
  as_matched_det_idx (f_assoc fr) = ∅ ∧
  length (f_new fr) = 2%nat.
Proof.
  intros fr.
  apply (negative_gate_matches_nothing 2 SampleIO.no_gate Sample.far_then_near).
  - reflexivity.
  - apply exact_hypot_nonneg.
Defined.

Lemma result_ids_increase_along_list_witness :
  ∃ rs,
    (run_frames (PeopleTracker_init 60 10).2 (PeopleTracker_init 60 10).1
       SampleIO.three_frames).2 !! 1%nat = Some rs ∧
    strictly_increasing (map res_id rs) ∧
    Forall (fun tid => 1 ≤ tid) (map res_id rs) ∧
    NoDup (map res_id rs).
Proof.
  eexists. split; [vm_compute; reflexivity|].
  apply (result_ids_increase_along_list 60 10 SampleIO.three_frames 1).
  vm_compute. reflexivity.
Defined.




Lemma undrawable_track_stops_drawing_witness :
  (draw_tracked_boxes format_2f_exact (take 1 SampleIO.far_dicts)).2 = false ∧
  length (draw_tracked_boxes format_2f_exact (take 1 SampleIO.far_dicts)).1
    = 2%nat ∧
  draw_tracked_boxes format_2f_exact SampleIO.far_dicts
  = ((draw_tracked_boxes format_2f_exact (take 1 SampleIO.far_dicts)).1, true).
Proof.
  refine (undrawable_track_stops_drawing format_2f_exact
            (take 1 SampleIO.far_dicts) (drop 2 SampleIO.far_dicts)
            {| td_id := Some 2; td_bbox := Some (0, 0, 2 ^ 31, 10);
               td_class := Some "person"%string; td_conf := None |} _ _).
  - apply Forall_singleton. exists (0, 0, 10, 10). split; [reflexivity|].
    repeat split; simpl; lia.
  - intros (b & Hb & (_ & _ & Hx2 & _)). simpl in Hb. injection Hb as <-.
    unfold in_int_range in Hx2. simpl in Hx2. lia.
Defined.

(** The same with a dictionary that has no ["bbox"]. *)
Example missing_bbox_raises :
  draw_tracked_boxes format_2f_exact SampleIO.broken_dicts
  = ((draw_tracked_boxes format_2f_exact (take 1 SampleIO.broken_dicts)).1, true).
Proof. vm_compute. reflexivity. Qed.

(** A person whose box reaches column 2^31 is detected, tracked and
    returned; drawing it raises, nothing is drawn on the frame, and the
    handler of the loop logs the failure. *)
Example far_corner_logged :
  ∃ p, main_loop format_2f_exact 0 1 Sample.tracker0 [SampleIO.far_person_frame]
       = [p] ∧
    res_bbox <$> p_tracks p = [(0, 0, 2 ^ 31, 10)] ∧
    p_drawn p = [] ∧ p_log p = [DrawError 1].
Proof. eexists. split; [reflexivity|]. vm_compute. by split_and!. Qed.

Lemma other_classes_dropped_silently_witness :
  detect_boxes [SampleIO.car_box; SampleIO.car_box] = ([], []).
Proof.
  apply other_classes_dropped_silently.
  assert (other_class SampleIO.car_box) as Hcar.
  { exists 2%Q. split; [reflexivity|]. vm_compute. discriminate. }
  repeat constructor; exact Hcar.
Defined.




Lemma short_box_unreadable : unreadable SampleIO.short_box.
Proof.
  split.
  - intros (c & Hc & Hne). simpl in Hc. injection Hc as <-. by apply Hne.
  - intros (row & conf & _ & Hlen & (rows & Hrows) & _).
    simpl in Hrows. injection Hrows as <- _. discriminate.
Qed.

(** A [conf] attribute that does not convert is an error of the box, even
    next to a [confidence] attribute that converts; the latter is read
    only when the box has no [conf]. *)
Example unconvertible_conf_is_an_error :
  unreadable SampleIO.bad_conf_box ∧
  detect_boxes [SampleIO.bad_conf_box] = ([], [BoxError]) ∧
  detect_boxes [SampleIO.old_style_box]
    = ([detection_of_box 0 0 10 10 (9 # 10)], []).
Proof.
  split_and!; [|reflexivity|reflexivity].
  pose proof (parse_box_inv SampleIO.bad_conf_box) as Hinv. exact Hinv.
Qed.

Lemma unreadable_box_skipped_alone_witness :
  detect_boxes ([SampleIO.car_box; SampleIO.person_box]
                ++ SampleIO.short_box :: [SampleIO.person_box])
  = ((detect_boxes [SampleIO.car_box; SampleIO.person_box]).1
     ++ (detect_boxes [SampleIO.person_box]).1,
     (detect_boxes [SampleIO.car_box; SampleIO.person_box]).2
     ++ BoxError :: (detect_boxes [SampleIO.person_box]).2).
Proof.
  apply unreadable_box_skipped_alone, short_box_unreadable.
Defined.

Lemma detections_are_centred_persons_witness :
  let det := detection_of_box 0 0 10 10 (9 # 10) in
  det ∈ (detect_boxes SampleIO.mixed_boxes).1 ∧
  det_class det = "person"%string ∧ is_Some (det_conf det) ∧
  ∃ x1 y1 x2 y2 cx cy,
    det_bbox det = (x1, y1, x2, y2) ∧
    det_center det = (inject_Z cx, inject_Z cy) ∧
    (x1 ≤ x2 → x1 ≤ cx ≤ x2) ∧ (y1 ≤ y2 → y1 ≤ cy ≤ y2).
Proof.
  intros det.
  assert (det ∈ (detect_boxes SampleIO.mixed_boxes).1) as Hin
    by (vm_compute; apply list_elem_of_here).
  split; [exact Hin|].
  exact (detections_are_centred_persons SampleIO.mixed_boxes det Hin).
Defined.

Lemma detector_outage_clears_tracks_witness :
  let passes := main_loop format_2f_exact 5 2 Sample.tracker1
                  (replicate 11 ModelRaised) in
  (∀ k p, passes !! k = Some p →
     DetectionError (5 + Z.of_nat k + 1) ∈ p_log p ∧
     p_tracks p = stale_report 10 (tracks Sample.tracker1) k ∧
     p_track_id p = 2) ∧
  ∃ p, last passes = Some p ∧
    tracks (p_tracker p) = [] ∧ p_tracks p = [] ∧ p_drawn p = [].
Proof.
  intros passes.
  apply (detector_outage_clears_tracks format_2f_exact 5 2 Sample.tracker1).
  - change (tracks Sample.tracker1) with [Sample.track1].
    apply Forall_singleton. simpl. lia.
  - simpl. lia.
Defined.
